(** * tombflow: the gameflow script decoder (package [script])

    A shallow embedding of [pkg/script/script.go] and [pkg/script/reader.go].
    Go's unsigned integers are integers in [Z] with their wrap-around written
    out, slices are lists, a [string] is the sequence of its bytes, and a
    run-time panic of the Go program is an explicit outcome.  The byte source
    handed to [Read] is the list of bytes it still has to deliver.  The table
    readers and the formatter of the earlier revision of the package are in
    the module [earlier]. *)

From Stdlib Require Import ZArith String Ascii DecimalString.
From Stdlib Require DecimalN DecimalPos DecimalFacts.
From stdpp Require Import base numbers list strings.

Open Scope Z_scope.

(** ** Outcomes of a Go call

    Nothing in the package returns an [error] value or recovers from a panic:
    a call either returns, or the run time aborts it with one of the two
    bounds errors below. *)

Inductive runtime_error : Set :=
| IndexOutOfRange
| SliceBoundsOutOfRange.

Inductive outcome (A : Type) : Type :=
| Returned (a : A)
| Panicked (e : runtime_error).

Arguments Returned {A} a.
Arguments Panicked {A} e.

#[global] Instance outcome_ret : MRet outcome := @Returned.
#[global] Instance outcome_bind : MBind outcome := λ A B f m,
  match m with
  | Returned a => f a
  | Panicked e => Panicked e
  end.
#[global] Instance outcome_fmap : FMap outcome := λ A B f m,
  match m with
  | Returned a => Returned (f a)
  | Panicked e => Panicked e
  end.

(** ** Integers and slices *)

Definition uint16 (z : Z) : Z := z mod 65536.

Definition int32 (z : Z) : Z :=
  let w := z mod 4294967296 in
  if w <? 2147483648 then w else w - 4294967296.

Definition len {A} (s : list A) : Z := Z.of_nat (length s).

(** [s[i]] *)
Definition index {A} (s : list A) (i : Z) : outcome A :=
  if 0 <=? i then
    match s !! Z.to_nat i with
    | Some x => Returned x
    | None => Panicked IndexOutOfRange
    end
  else Panicked IndexOutOfRange.

(** The elements of [s[lo:hi]], without the bounds check. *)
Definition sub {A} (s : list A) (lo hi : Z) : list A :=
  take (Z.to_nat (hi - lo)) (drop (Z.to_nat lo) s).

(** [s[lo:hi]].  Every slice of the package is made with [make] and a length
    only, so its capacity is its length. *)
Definition slice {A} (s : list A) (lo hi : Z) : outcome (list A) :=
  if (0 <=? lo) && (lo <=? hi) && (hi <=? len s)
  then Returned (sub s lo hi)
  else Panicked SliceBoundsOutOfRange.

(** Writing [bs] over [s] from position [lo] on: what assignments through a
    sub-slice [s[lo:hi]] do to the array that [s] shares with it. *)
Definition overwrite {A} (s : list A) (lo : Z) (bs : list A) : list A :=
  take (Z.to_nat lo) s ++ bs ++ drop (Z.to_nat lo + length bs) s.

(** [string(bytes)]: a Go string is its bytes. *)
Definition byte_to_ascii (b : Z) : ascii := ascii_of_N (Z.to_N b).

Definition string_of_bytes (bs : list Z) : string :=
  foldr (λ b s, String (byte_to_ascii b) s) EmptyString bs.

(** [binary.LittleEndian.Uint16(b)], for [b] of two bytes at least. *)
Definition LittleEndian_Uint16 (b0 b1 : Z) : Z := Z.lor b0 (Z.shiftl b1 8).

(** ** The offset table: [multiByteArray] *)

Record multiByteArray : Type := newMultiByteArray {
  offsets : list Z;
  data : list Z
}.

(** The body of the [range m.offsets] loop of [Strings], from the offset at
    hand on: [offs] is [m.offsets[i:]], so the record is the last one when
    nothing follows its offset, and [m.offsets[i+1]] is the head of what
    follows otherwise.  [bytes] is a sub-slice of [m.data]: the loop
    [bytes[i] ^= xor] writes into the array [m.data] lives in, which is the
    second component of the result. *)
Fixpoint Strings_from (xor : Z) (offs : list Z) (mdata : list Z)
  : outcome (list string * list Z) :=
  match offs with
  | [] => Returned ([], mdata)
  | offset :: rest =>
      let to := match rest with
                | [] => len mdata
                | to :: _ => to
                end in
      bytes ← slice mdata offset to;
      let bytes := if 0 <? xor then (λ b, Z.lxor b xor) <$> bytes else bytes in
      let mdata := if 0 <? xor then overwrite mdata offset bytes else mdata in
      '(strs, mdata) ← Strings_from xor rest mdata;
      Returned (string_of_bytes bytes :: strs, mdata)
  end.

(** [m.Strings(xor)]: the strings, and [m] as the call leaves it. *)
Definition Strings (m : multiByteArray) (xor : Z)
  : outcome (list string * multiByteArray) :=
  '(strs, mdata) ← Strings_from xor (offsets m) (data m);
  Returned (strs, newMultiByteArray (offsets m) mdata).

(** The first loop of [U16]: [len(m.data)/2] little-endian words; a last odd
    byte is left out. *)
Fixpoint words_of_bytes (bs : list Z) : list Z :=
  match bs with
  | b0 :: b1 :: bs => LittleEndian_Uint16 b0 b1 :: words_of_bytes bs
  | _ => []
  end.

(** The second loop of [U16], with [offs] as in [Strings_from]. *)
Fixpoint U16_from (offs : list Z) (u16 : list Z) : outcome (list (list Z)) :=
  match offs with
  | [] => Returned []
  | offset :: rest =>
      match rest with
      | [] =>
          chunk ← slice u16 (offset / 2) (len u16);
          Returned [chunk]
      | to :: _ =>
          chunk ← slice u16 (offset / 2) (to / 2);
          chunks ← U16_from rest u16;
          Returned (chunk :: chunks)
      end
  end.

(** [m.U16()] *)
Definition U16 (m : multiByteArray) : outcome (list (list Z)) :=
  U16_from (offsets m) (words_of_bytes (data m)).

(** ** Opcodes and commands *)

Definition OpPicture : Z := 0.
Definition OpListStart : Z := 1.
Definition OpListEnd : Z := 2.
Definition OpFmv : Z := 3.
Definition OpLevel : Z := 4.
Definition OpCine : Z := 5.
Definition OpComplete : Z := 6.
Definition OpDemo : Z := 7.
Definition OpJumpToSequence : Z := 8.
Definition OpEnd : Z := 9.
Definition OpTrack : Z := 10.
Definition OpSunset : Z := 11.
Definition OpLoadPic : Z := 12.
Definition OpDeadlyWater : Z := 13.
Definition OpRemoveWeapons : Z := 14.
Definition OpGameComplete : Z := 15.
Definition OpCutAngle : Z := 16.
Definition OpNoFloor : Z := 17.
Definition OpStartInv : Z := 18.
Definition OpStartAnim : Z := 19.
Definition OpSecrets : Z := 20.
Definition OpKillToComplete : Z := 21.
Definition OpRemoveAmmo : Z := 22.
Definition OpExitToTitle : Z := 24.
Definition OpExitGame : Z := 25.

Definition tOpcodes : list string :=
  [ "Picture"; "List Start"; "List End"; "Display FMV"; "Play Level";
    "Display Cutscene"; "End Level"; "Play Demo"; "Jump to Sequence";
    "End Sequence"; "Play Soundtrack"; "Sunset"; "Load Pic"; "Deadly Water";
    "Remove Weapons"; "Game Complete"; "Set Cutscene Angle"; "No Floor";
    "Start Inv"; "Start Animation"; "Secrets"; "Kill to Complete";
    "Remove Ammo" ]%string.

Definition opcodeHasArgument : list Z :=
  [ OpPicture; OpFmv; OpLevel; OpCine; OpDemo; OpJumpToSequence; OpTrack;
    OpLoadPic; OpCutAngle; OpNoFloor; OpStartInv; OpStartAnim; OpSecrets ].

(** The loop of [hasArg] over a classification table. *)
Fixpoint hasArg_in (table : list Z) (o : Z) : bool :=
  match table with
  | [] => false
  | x :: table => if x =? o then true else hasArg_in table o
  end.

(** [o.hasArg()] *)
Definition hasArg (o : Z) : bool := hasArg_in opcodeHasArgument o.

(** [o.String()]: only the upper bound is tested before indexing. *)
Definition Opcode_String (o : Z) : outcome string :=
  if o <? len tOpcodes then index tOpcodes o else Returned "Unknown"%string.

Record Command : Type := mkCommand {
  Op : Z;
  Arg : Z
}.

Definition Sequence : Type := list Command.

(** The inner loop of [readSequenceArray] on one chunk, from position [i] on.
    An opcode is a word read as it is ([Opcode(chunk[i])] widens a 16-bit
    word to 32 bits).  The loop makes at most [len(chunk)] rounds, which is
    the fuel [decodeSequence] gives it. *)
Fixpoint decode_from (fuel : nat) (chunk : list Z) (i : Z) : outcome Sequence :=
  match fuel with
  | O => Returned []
  | S fuel =>
      if i <? len chunk then
        typ ← index chunk i;
        if hasArg typ then
          let i := i + 1 in
          arg ← index chunk i;
          seq ← decode_from fuel chunk (i + 1);
          Returned (mkCommand typ arg :: seq)
        else
          seq ← decode_from fuel chunk (i + 1);
          Returned (mkCommand typ 0 :: seq)
      else Returned []
  end.

Definition decodeSequence (chunk : list Z) : outcome Sequence :=
  decode_from (length chunk) chunk 0.

(** The outer loop of [readSequenceArray] over the chunks. *)
Fixpoint decodeSequences (chunks : list (list Z)) : outcome (list Sequence) :=
  match chunks with
  | [] => Returned []
  | chunk :: chunks =>
      seq ← decodeSequence chunk;
      seqs ← decodeSequences chunks;
      Returned (seq :: seqs)
  end.

(** ** Levels and the script *)

Record Level : Type := mkLevel {
  Name : string;
  Path : string;
  Chapter : string;
  Flow : Sequence;
  IsDemo : bool;
  Puzzles : list string;
  Pickups : list string;
  Keys : list string
}.

(** The zero value of [Level]; the three arrays have 4, 2 and 4 slots. *)
Definition Level_zero : Level :=
  mkLevel "" "" "" [] false (replicate 4 ""%string) (replicate 2 ""%string)
          (replicate 4 ""%string).

Record Script : Type := mkScript {
  Version : Z;
  Description : string;
  Lang : Z;
  Levels : list Level;
  Titles : list string;
  Fmvs : list string;
  Cutscenes : list string;
  GameStrings : list string;
  ExtraStrings : list string
}.

(** The first loop of [joinLevels], from level [i] on: [names], [paths],
    [chaps] are the slices from [i] on and [flow] is [flow[i+1:]], so the tests
    [i < len(paths)], [i < len(chaps)] and [i+1 < len(flow)] ask whether a
    head is there. *)
Fixpoint joinLevels_from (names paths chaps : list string) (flow : list Sequence)
  : list Level :=
  match names with
  | [] => []
  | name :: names =>
      mkLevel name (default ""%string (head paths)) (default ""%string (head chaps))
              (default [] (head flow)) false
              (Puzzles Level_zero) (Pickups Level_zero) (Keys Level_zero)
      :: joinLevels_from names (tail paths) (tail chaps) (tail flow)
  end.

Definition setDemo (l : Level) : Level :=
  mkLevel (Name l) (Path l) (Chapter l) (Flow l) true
          (Puzzles l) (Pickups l) (Keys l).

(** One round of the second loop of [joinLevels]. *)
Definition markDemo (l : list Level) (demo : Z) : list Level :=
  if demo <? len l then alter setDemo (Z.to_nat demo) l else l.

Definition joinLevels (names paths chaps : list string) (flow : list Sequence)
    (demos : list Z) : list Level :=
  foldl markDemo (joinLevels_from names paths chaps (tail flow)) demos.

(** ** The command formatter *)

(** [%v] of a [uint16]. *)
Definition decimal (n : Z) : string :=
  NilZero.string_of_uint (N.to_uint (Z.to_N n)).

(** [%v] of an [Opcode] calls its [String] method; [fmt] recovers a panic of
    that method and prints it in place of the value. *)
Definition fmt_Opcode (o : Z) : string :=
  match Opcode_String o with
  | Returned s => s
  | Panicked _ =>
      ("%!v(PANIC=String method: runtime error: index out of range ["
       +:+ NilZero.string_of_int (Z.to_int o) +:+ "])")%string
  end.

(** [fmt.Sprintf("%v '%v'", op, s)] *)
Definition Sprintf_quoted (op : Z) (s : string) : string :=
  (fmt_Opcode op +:+ " '" +:+ s +:+ "'")%string.

(** [fmt.Sprintf("%v '%v' (%v)", op, path, name)] *)
Definition Sprintf_level (op : Z) (path name : string) : string :=
  (fmt_Opcode op +:+ " '" +:+ path +:+ "' (" +:+ name +:+ ")")%string.

(** [fmt.Sprintf("%v %v", op, arg)] *)
Definition Sprintf_raw (op arg : Z) : string :=
  (fmt_Opcode op +:+ " " +:+ decimal arg)%string.

(** [s.FormatCommand(c)] *)
Definition FormatCommand (s : Script) (c : Command) : outcome string :=
  if negb (hasArg (Op c)) then Opcode_String (Op c)
  else if Op c =? OpLoadPic then
    level ← index (Levels s) (Arg c);
    Returned (Sprintf_quoted (Op c) (Chapter level))
  else if Op c =? OpFmv then
    fmv ← index (Fmvs s) (Arg c);
    Returned (Sprintf_quoted (Op c) fmv)
  else if Op c =? OpLevel then
    level ← index (Levels s) (Arg c);
    Returned (Sprintf_level (Op c) (Path level) (Name level))
  else if Op c =? OpCine then
    cine ← index (Cutscenes s) (Arg c);
    Returned (Sprintf_quoted (Op c) cine)
  else Returned (Sprintf_raw (Op c) (Arg c)).

(** ** The byte source and [binary.Read]

    [binary.Read] asks [io.ReadFull] for as many bytes as the destination
    needs.  When the source has them they are taken and decoded, least
    significant byte first.  When it has fewer, [io.ReadFull] takes what is left
    and [binary.Read] returns an error without touching the destination; every
    caller in the package drops that error, so the destination keeps the value
    it had. *)

Definition reader : Type := list Z.

Definition binary_Read (n : Z) (r : reader) : option (list Z) * reader :=
  if n <=? len r
  then (Some (take (Z.to_nat n) r), drop (Z.to_nat n) r)
  else (None, []).

(** An unsigned integer from its little-endian bytes. *)
Definition le_uint (bs : list Z) : Z :=
  foldr (λ b acc, Z.lor b (Z.shiftl acc 8)) 0 bs.

(** [binary.Read(r, binary.LittleEndian, &v)] for a [uint16] that holds [v]. *)
Definition read_uint16 (v : Z) (r : reader) : Z * reader :=
  match binary_Read 2 r with
  | (Some bs, r) => (le_uint bs, r)
  | (None, r) => (v, r)
  end.

(** [v := make([]uint16, count); binary.Read(r, binary.LittleEndian, &v)] *)
Definition read_uint16s (count : Z) (r : reader) : list Z * reader :=
  match binary_Read (2 * count) r with
  | (Some bs, r) => (words_of_bytes bs, r)
  | (None, r) => (replicate (Z.to_nat count) 0, r)
  end.

(** [v := make([]uint8, size); binary.Read(r, binary.LittleEndian, &v)] *)
Definition read_uint8s (size : Z) (r : reader) : list Z * reader :=
  match binary_Read size r with
  | (Some bs, r) => (bs, r)
  | (None, r) => (replicate (Z.to_nat size) 0, r)
  end.

(** The file header.  The blank fields of the Go struct take part in its
    size only. *)
Module header.

Record t : Type := mk {
  Version : Z;
  Description : list Z;
  GameflowSize : Z;
  FirstOption : Z;
  TitleReplace : Z;
  OnDeathDemoMode : Z;
  OnDeathInGame : Z;
  DemoTime : Z;
  OnDemoInterrupt : Z;
  OnDemoEnd : Z;
  NumLevels : Z;
  NumChapterScreens : Z;
  NumTitles : Z;
  NumFmvs : Z;
  NumCutscenes : Z;
  NumDemoLevels : Z;
  TitleSoundId : Z;
  SingleLevel : Z;
  Flags : Z;
  XorKey : Z;
  LanguageId : Z;
  SecretSoundId : Z
}.

(** [header{}] *)
Definition zero : t :=
  mk 0 (replicate 256 0) 0 0 0 0 0 0 0 0 0 0 0 0 0 0 0 0 0 0 0 0.

(** 4+256+2+4*4+4+2*4+36+8*2+32+2+6+1+1+2+4 bytes. *)
Definition size : Z := 390.

Definition unsigned (buf : list Z) (at_ n : Z) : Z :=
  le_uint (sub buf at_ (at_ + n)).

Definition signed (buf : list Z) (at_ n : Z) : Z :=
  int32 (unsigned buf at_ n).

Definition decode (buf : list Z) : t :=
  mk (unsigned buf 0 4) (sub buf 4 260) (unsigned buf 260 2)
     (signed buf 262 4) (signed buf 266 4) (signed buf 270 4)
     (signed buf 274 4) (unsigned buf 278 4) (signed buf 282 4)
     (signed buf 286 4)
     (unsigned buf 326 2) (unsigned buf 328 2) (unsigned buf 330 2)
     (unsigned buf 332 2) (unsigned buf 334 2) (unsigned buf 336 2)
     (unsigned buf 338 2) (unsigned buf 340 2)
     (unsigned buf 374 2)
     (unsigned buf 382 1) (unsigned buf 383 1) (unsigned buf 384 2).

End header.

Definition readHeader (r : reader) : header.t * reader :=
  match binary_Read header.size r with
  | (Some buf, r) => (header.decode buf, r)
  | (None, r) => (header.zero, r)
  end.

Definition readMultiByteArray (r : reader) (count : Z) : multiByteArray * reader :=
  let '(offsets, r) := read_uint16s count r in
  let '(size, r) := read_uint16 0 r in
  let '(data, r) := read_uint8s size r in
  (newMultiByteArray offsets data, r).

Definition readStringArray (r : reader) (count : Z) (xor : Z)
  : outcome (list string * reader) :=
  let '(m, r) := readMultiByteArray r count in
  '(strs, _) ← Strings m xor;
  Returned (strs, r).

Definition readSequenceArray (r : reader) (count : Z)
  : outcome (list Sequence * reader) :=
  let '(m, r) := readMultiByteArray r count in
  chunks ← U16 m;
  seqs ← decodeSequences chunks;
  Returned (seqs, r).

Definition readDemoLevels (r : reader) (count : Z) : list Z * reader :=
  read_uint16s count r.

Definition readGameStrings (r : reader) (xor : Z) : outcome (list string * reader) :=
  let '(count, r) := read_uint16 0 r in
  readStringArray r count xor.

(** ** The assembler: [Read] *)

(** [levels[j].Puzzles[i] = v], and the same for the two other arrays. *)
Definition setPuzzle (i : nat) (v : string) (l : Level) : Level :=
  mkLevel (Name l) (Path l) (Chapter l) (Flow l) (IsDemo l)
          (<[i:=v]> (Puzzles l)) (Pickups l) (Keys l).

Definition setPickup (i : nat) (v : string) (l : Level) : Level :=
  mkLevel (Name l) (Path l) (Chapter l) (Flow l) (IsDemo l)
          (Puzzles l) (<[i:=v]> (Pickups l)) (Keys l).

Definition setKey (i : nat) (v : string) (l : Level) : Level :=
  mkLevel (Name l) (Path l) (Chapter l) (Flow l) (IsDemo l)
          (Puzzles l) (Pickups l) (<[i:=v]> (Keys l)).

(** The loop [for j := 0; j < n; j++ { levels[j].slot = puzzles[j] }], from
    [j] on: [levels] and [puzzles] are the slices from [j] on and [n] counts
    the rounds left; a round that finds either slice used up is an index out
    of range. *)
Fixpoint scatter (n : nat) (set : string → Level → Level)
    (levels : list Level) (puzzles : list string) : outcome (list Level) :=
  match n with
  | O => Returned levels
  | S n =>
      match levels, puzzles with
      | l :: levels, v :: puzzles =>
          levels ← scatter n set levels puzzles;
          Returned (set v l :: levels)
      | _, _ => Panicked IndexOutOfRange
      end
  end.

(** One of the three loops [for i := 0; i < k; i++] at the end of [Read], from
    [i] on, with [k] counting the rounds left. *)
Fixpoint readSlots (k : nat) (set : nat → string → Level → Level) (i : nat)
    (head : header.t) (levels : list Level) (r : reader)
  : outcome (list Level * reader) :=
  match k with
  | O => Returned (levels, r)
  | S k =>
      '(puzzles, r) ← readStringArray r (header.NumLevels head) (header.XorKey head);
      levels ← scatter (Z.to_nat (header.NumLevels head)) (set i) levels puzzles;
      readSlots k set (S i) head levels r
  end.

(** What [Read] has decoded when it returns: the script, and with it the level
    names and the gameflow sequences it was joined from. *)
Record decoded : Type := mkDecoded {
  script : Script;
  levelNames : list string;
  gameFlow : list Sequence
}.

(** The body of [Read]. *)
Definition Read_decoded (r : reader) : outcome decoded :=
  let '(head, r) := readHeader r in
  '(levelNames, r) ← readStringArray r (header.NumLevels head) (header.XorKey head);
  '(chapterPaths, r) ← readStringArray r (header.NumChapterScreens head) (header.XorKey head);
  '(titlePaths, r) ← readStringArray r (header.NumTitles head) (header.XorKey head);
  '(fmvPaths, r) ← readStringArray r (header.NumFmvs head) (header.XorKey head);
  '(levelPaths, r) ← readStringArray r (header.NumLevels head) (header.XorKey head);
  '(cutscenePaths, r) ← readStringArray r (header.NumCutscenes head) (header.XorKey head);
  '(gameFlow, r) ← readSequenceArray r (uint16 (header.NumLevels head + 1));
  let '(demoLevels, r) := readDemoLevels r (header.NumDemoLevels head) in
  '(gameStrings, r) ← readGameStrings r (header.XorKey head);
  '(extraStrings, r) ← readStringArray r 41 (header.XorKey head);
  let levels := joinLevels levelNames levelPaths chapterPaths gameFlow demoLevels in
  '(levels, r) ← readSlots 4 setPuzzle 0 head levels r;
  '(levels, r) ← readSlots 2 setPickup 0 head levels r;
  '(levels, r) ← readSlots 4 setKey 0 head levels r;
  Returned (mkDecoded
    (mkScript (header.Version head) (string_of_bytes (header.Description head)) 0
              levels titlePaths fmvPaths cutscenePaths gameStrings extraStrings)
    levelNames gameFlow).

(** [Read(r)] *)
Definition Read (r : reader) : outcome Script := script <$> Read_decoded r.

(** ** The other methods of the package *)

Definition tLanguages : list string :=
  [ "English"; "French"; "German"; "American"; "Japanese"; "Italian";
    "Spanish" ]%string.

(** [l.String()] for a [Language], which is a [uint8]. *)
Definition Language_String (l : Z) : outcome string :=
  if l <? len tLanguages then index tLanguages l else Returned "Unknown"%string.

(** [c.String()] for a [Command]. *)
Definition Command_String (c : Command) : outcome string :=
  if hasArg (Op c) then Returned (Sprintf_raw (Op c) (Arg c))
  else Opcode_String (Op c).

(** ** The readers of the earlier revision of the package

    Before [multiByteArray] the two table readers did the reads, the XOR pass
    and the cuts themselves: the XOR pass went over the whole payload before
    the cuts, and the words of the gameflow table were read as words. *)
Module earlier.

Definition readOffsetsAndSize (r : reader) (count : Z) : (list Z * Z) * reader :=
  let '(off, r) := read_uint16s count r in
  let '(sz, r) := read_uint16 0 r in
  ((off, sz), r).

(** The loop over the offsets of [readStringArray], with [off] as in
    [Strings_from]. *)
Fixpoint strings_from (off : list Z) (data : list Z) : outcome (list string) :=
  match off with
  | [] => Returned []
  | offset :: rest =>
      match rest with
      | [] =>
          bytes ← slice data offset (len data);
          Returned [string_of_bytes bytes]
      | to :: _ =>
          bytes ← slice data offset to;
          strs ← strings_from rest data;
          Returned (string_of_bytes bytes :: strs)
      end
  end.

Definition readStringArray (r : reader) (count : Z) (xor : Z)
  : outcome (list string * reader) :=
  let '((off, sz), r) := readOffsetsAndSize r count in
  let '(data, r) := read_uint8s sz r in
  let data := if 0 <? xor then (λ b, Z.lxor b xor) <$> data else data in
  strs ← strings_from off data;
  Returned (strs, r).

(** The loop over the offsets is the one [U16] has now, and the loop over the
    chunks the one [readSequenceArray] has now. *)
Definition readSequenceArray (r : reader) (count : Z)
  : outcome (list Sequence * reader) :=
  let '((off, size), r) := readOffsetsAndSize r count in
  let '(data, r) := read_uint16s (size / 2) r in
  chunks ← U16_from off data;
  seqs ← decodeSequences chunks;
  Returned (seqs, r).

(** [s.FormatOp(o)]: the formatter before it was [FormatCommand]; an
    instruction was an [Op] with the fields [Typ] and [Arg], and an opcode
    without argument went through [fmt] as the others do. *)
Definition FormatOp (s : Script) (o : Command) : outcome string :=
  if negb (hasArg (Op o)) then Returned (fmt_Opcode (Op o))
  else if Op o =? OpLoadPic then
    level ← index (Levels s) (Arg o);
    Returned (Sprintf_quoted (Op o) (Chapter level))
  else if Op o =? OpFmv then
    fmv ← index (Fmvs s) (Arg o);
    Returned (Sprintf_quoted (Op o) fmv)
  else if Op o =? OpLevel then
    level ← index (Levels s) (Arg o);
    Returned (Sprintf_level (Op o) (Path level) (Name level))
  else if Op o =? OpCine then
    cine ← index (Cutscenes s) (Arg o);
    Returned (Sprintf_quoted (Op o) cine)
  else Returned (Sprintf_raw (Op o) (Arg o)).

End earlier.

(** * The vocabulary of the statements, and test data *)

(** Values of the Go type [uint16]. *)
Definition is_uint16 (z : Z) : Prop := 0 ≤ z < 65536.

(** Values of the Go types [uint8] and [byte]. *)
Definition is_uint8 (z : Z) : Prop := 0 ≤ z < 256.

(** Whether a call returned. *)
Definition is_Returned {A} (m : outcome A) : bool :=
  match m with
  | Returned _ => true
  | Panicked _ => false
  end.

(** The records of an offset table as the format lays them out: record [i]
    goes from offset [i] to offset [i+1], the last one to the end of the
    payload. *)
Fixpoint records {A} (offs : list Z) (payload : list A) : list (list A) :=
  match offs with
  | [] => []
  | offset :: rest =>
      sub payload offset (match rest with [] => len payload | to :: _ => to end)
      :: records rest payload
  end.

(** Offsets that rise from [lo] on and stay within a payload of [n]
    elements. *)
Fixpoint rising (lo : Z) (offs : list Z) (n : Z) : bool :=
  match offs with
  | [] => lo <=? n
  | offset :: rest => (lo <=? offset) && rising offset rest n
  end.

(** A valid offset table. *)
Definition valid (m : multiByteArray) : Prop :=
  rising 0 (offsets m) (len (data m)) = true.

(** The XOR pass of [Strings] over a run of bytes. *)
Definition xor_bytes (xor : Z) (bs : list Z) : list Z :=
  if 0 <? xor then (λ b, Z.lxor b xor) <$> bs else bs.

(** The payload after the XOR pass went over every record: the bytes from the
    first offset on are transformed. *)
Definition xor_payload (xor : Z) (offs : list Z) (payload : list Z) : list Z :=
  match offs with
  | [] => payload
  | offset :: _ =>
      take (Z.to_nat offset) payload
      ++ xor_bytes xor (drop (Z.to_nat offset) payload)
  end.

(** The word at the even offset below [offset]. *)
Definition half (offset : Z) : Z := offset / 2.

(** The bytes of a list of 16-bit words, least significant byte first. *)
Definition bytes_of_words (ws : list Z) : list Z :=
  ws ≫= λ w, [w mod 256; w / 256].

(** The strings of a list, one after the other. *)
Definition concat_strings (strs : list string) : string :=
  foldr String.append EmptyString strs.

(** ** Test data *)

(** The names of five levels. *)
Definition five_names : list string := ["a"; "b"; "c"; "d"; "e"]%string.

(** A script of one level, with one FMV and one cutscene. *)
Definition jungle : Script :=
  mkScript 0 "" 0
    [mkLevel "Jungle" "data\jungle.TR2" "pix\india.bmp" [] false
             (replicate 4 ""%string) (replicate 2 ""%string)
             (replicate 4 ""%string)]
    [] ["fmv\intro.rpl"%string] ["cuts\cut6.TR2"%string] [] [].

(** An offset table of two records over three bytes. *)
Definition table_AB_C : multiByteArray := newMultiByteArray [0; 2] [65; 66; 67].

(** [binary.LittleEndian.PutUint16], to write test files. *)
Definition le16 (w : Z) : list Z := [w mod 256; w / 256].

(** [[]byte(s)] *)
Definition bytes_of_string (s : string) : list Z :=
  (λ a, Z.of_N (N_of_ascii a)) <$> list_ascii_of_string s.

(** A table of text records, one after the other from offset 0 on. *)
Definition table_of (strs : list string) : list Z :=
  (fix offs (at_ : Z) (strs : list string) : list Z :=
     match strs with
     | [] => []
     | s :: strs => le16 at_ ++ offs (at_ + Z.of_nat (String.length s)) strs
     end) 0 strs
  ++ le16 (Z.of_nat (String.length (concat_strings strs)))
  ++ bytes_of_string (concat_strings strs).

(** A script file of one level: the header with [NumLevels = 1] and
    [NumChapterScreens = 1], then the tables in the order [Read] takes them. *)
Definition jungle_file : list Z :=
  replicate 326 0 ++ le16 1 ++ le16 1 ++ replicate 60 0
  ++ table_of ["Jungle"%string]
  ++ table_of ["pix\india.bmp"%string]
  ++ table_of [] ++ table_of []
  ++ table_of ["data\jungle.TR2"%string]
  ++ table_of []
  ++ (le16 0 ++ le16 0 ++ le16 14
      ++ le16 OpTrack ++ le16 34 ++ le16 OpLoadPic ++ le16 0
      ++ le16 OpLevel ++ le16 0 ++ le16 OpEnd)
  ++ (le16 0 ++ table_of [])
  ++ table_of (replicate 41 ""%string)
  ++ table_of ["P1"%string] ++ table_of ["P2"%string]
  ++ table_of ["P3"%string] ++ table_of ["P4"%string]
  ++ table_of ["U1"%string] ++ table_of ["U2"%string]
  ++ table_of ["K1"%string] ++ table_of ["K2"%string]
  ++ table_of ["K3"%string] ++ table_of ["Indra Key"%string].

(** A script file of 65535 levels without a name: the header with
    [NumLevels = 65535], then every table in full, with offsets 0 and no
    payload: twelve tables of 65535 records and 98 bytes for the others. *)
Definition wide_file : list Z :=
  replicate 326 0 ++ le16 65535 ++ replicate 62 0
  ++ replicate (Z.to_nat (12 * (2 * 65535 + 2) + 98)) 0.

(** ** The layout of sequences and tables *)

(** The words of an instruction: the opcode, and the argument when the opcode
    has one. *)
Definition words_of_command (c : Command) : list Z :=
  if hasArg (Op c) then [Op c; Arg c] else [Op c].

Definition words_of_sequence (seq : Sequence) : list Z :=
  seq ≫= words_of_command.

(** An instruction as the scan makes it: argument 0 when the opcode has
    none. *)
Definition plain_command (c : Command) : Prop :=
  hasArg (Op c) = false → Arg c = 0.

(** An offset table in the file: the offsets, the size of the payload, the
    payload. *)
Definition encode_table (offs : list Z) (payload : list Z) : list Z :=
  bytes_of_words offs ++ le16 (len payload) ++ payload.

(** The offsets of records laid one after the other from [at_] on. *)
Fixpoint chunk_offsets {A} (at_ : Z) (chunks : list (list A)) : list Z :=
  match chunks with
  | [] => []
  | chunk :: chunks => at_ :: chunk_offsets (at_ + len chunk) chunks
  end.

(** A table of strings in the file, its payload transformed with [xor]. *)
Definition encode_strings (xor : Z) (strs : list string) : list Z :=
  encode_table (chunk_offsets 0 (bytes_of_string <$> strs))
               (xor_bytes xor (concat (bytes_of_string <$> strs))).

(** A table of sequences in the file: the offsets count bytes. *)
Definition encode_sequences (seqs : list Sequence) : list Z :=
  encode_table (Z.mul 2 <$> chunk_offsets 0 (words_of_sequence <$> seqs))
               (bytes_of_words (concat (words_of_sequence <$> seqs))).

(** Values of the Go type [int32]. *)
Definition is_int32 (z : Z) : Prop := -2147483648 ≤ z < 2147483648.

(** Values of the Go type [uint32]. *)
Definition is_uint32 (z : Z) : Prop := 0 ≤ z < 4294967296.

(** The tables that [k] rounds of one of the loops at the end of [Read] take
    from the source, one after the other. *)
Fixpoint readTables (k : nat) (head : header.t) (r : reader)
  : outcome (list (list string) * reader) :=
  match k with
  | O => Returned ([], r)
  | S k =>
      '(table, r) ← readStringArray r (header.NumLevels head) (header.XorKey head);
      '(tables, r) ← readTables k head r;
      Returned (table :: tables, r)
  end.

(** The source as [Read] has it when it comes to the gameflow table: after
    the header and the six tables of strings that [Read] takes before it. *)
Definition gameflow_source (r : reader) : outcome reader :=
  let '(head, r) := readHeader r in
  '(_, r) ← readStringArray r (header.NumLevels head) (header.XorKey head);
  '(_, r) ← readStringArray r (header.NumChapterScreens head) (header.XorKey head);
  '(_, r) ← readStringArray r (header.NumTitles head) (header.XorKey head);
  '(_, r) ← readStringArray r (header.NumFmvs head) (header.XorKey head);
  '(_, r) ← readStringArray r (header.NumLevels head) (header.XorKey head);
  '(_, r) ← readStringArray r (header.NumCutscenes head) (header.XorKey head);
  Returned r.

(** ** Decimal numerals *)




(** * Properties *)

(** ** Outcomes *)

Lemma bind_Returned {A B} (m : outcome A) (f : A → outcome B) (b : B) :
  m ≫= f = Returned b ↔ ∃ a, m = Returned a ∧ f a = Returned b.
Proof.
  destruct m as [a|e]; simpl.
  - split; [eauto | by intros (? & [= <-] & ?)].
  - split; [done | by intros (? & ? & ?)].
Qed.

Lemma fmap_Returned {A B} (m : outcome A) (f : A → B) (b : B) :
  f <$> m = Returned b ↔ ∃ a, m = Returned a ∧ f a = b.
Proof.
  destruct m as [a|e]; simpl.
  - split; [intros [= <-]; eauto | by intros (? & [= <-] & <-)].
  - split; [done | by intros (? & ? & ?)].
Qed.

(** ** [joinLevels] *)

Section joinLevels.

Implicit Types (names paths chaps : list string) (flow : list Sequence).
Implicit Types (demos : list Z) (l : list Level).

Lemma joinLevels_from_length names paths chaps flow :
  length (joinLevels_from names paths chaps flow) = length names.
Proof.
  revert paths chaps flow.
  induction names as [|name names IH]; intros; simpl; [done|].
  by rewrite IH.
Qed.

(** Level [i] before the demo marks: positional copies, defaults where a
    table is too short. *)
Lemma joinLevels_from_lookup names paths chaps flow (i : nat) :
  joinLevels_from names paths chaps flow !! i =
  (λ name, mkLevel name (default ""%string (paths !! i))
                   (default ""%string (chaps !! i)) (default [] (flow !! i))
                   false (Puzzles Level_zero) (Pickups Level_zero)
                   (Keys Level_zero)) <$> names !! i.
Proof.
  revert paths chaps flow i.
  induction names as [|name names IH]; intros paths chaps flow [|i]; simpl;
    try done.
  - by rewrite !head_lookup.
  - by rewrite IH, !lookup_tail.
Qed.

Lemma markDemo_length l demo : length (markDemo l demo) = length l.
Proof. unfold markDemo. case_match; [apply length_alter | done]. Qed.

Lemma foldl_markDemo_length demos l :
  length (foldl markDemo l demos) = length l.
Proof.
  revert l. induction demos as [|d demos IH]; intros l; simpl; [done|].
  by rewrite IH, markDemo_length.
Qed.

(** An index at or past the end of the level list leaves it as it is. *)
Lemma markDemo_out_of_range l demo : len l ≤ demo → markDemo l demo = l.
Proof. unfold markDemo. intros ?. case_match; [lia | done]. Qed.

(** One round marks exactly the level it names. *)
Lemma markDemo_lookup l demo (i : nat) :
  0 ≤ demo →
  markDemo l demo !! i =
  (λ lvl, if bool_decide (Z.of_nat i = demo) then setDemo lvl else lvl)
    <$> l !! i.
Proof.
  intros Hdemo. unfold markDemo.
  destruct (demo <? len l) eqn:Hlt.
  - rewrite list_lookup_alter. case_decide as Hi.
    + subst i. rewrite bool_decide_eq_true_2 by lia. done.
    + rewrite bool_decide_eq_false_2 by lia. by destruct (l !! i).
  - destruct (l !! i) as [lvl|] eqn:Hl; simpl; [|done].
    apply lookup_lt_Some in Hl. unfold len in Hlt.
    rewrite bool_decide_eq_false_2 by lia. done.
Qed.

Lemma foldl_markDemo_lookup demos l (i : nat) :
  Forall is_uint16 demos →
  foldl markDemo l demos !! i =
  (λ lvl, if bool_decide (Z.of_nat i ∈ demos) then setDemo lvl else lvl)
    <$> l !! i.
Proof.
  intros Hdemos. revert l.
  induction Hdemos as [|d demos Hd _ IH]; intros l; simpl.
  - by destruct (l !! i).
  - rewrite IH, markDemo_lookup by (unfold is_uint16 in Hd; lia).
    destruct (l !! i) as [lvl|]; simpl; [|done]. f_equal.
    destruct (decide (Z.of_nat i = d)) as [Heq|Hne].
    + rewrite (bool_decide_eq_true_2 (Z.of_nat i = d)) by done.
      rewrite (bool_decide_eq_true_2 (Z.of_nat i ∈ d :: demos))
        by (apply elem_of_cons; by left).
      destruct (bool_decide (Z.of_nat i ∈ demos)); destruct lvl; reflexivity.
    + rewrite (bool_decide_eq_false_2 (Z.of_nat i = d)) by done.
      apply (f_equal (λ b : bool, if b then setDemo lvl else lvl)).
      apply bool_decide_ext. rewrite elem_of_cons. tauto.
Qed.

Lemma joinLevels_length names paths chaps flow demos :
  length (joinLevels names paths chaps flow demos) = length names.
Proof.
  unfold joinLevels. by rewrite foldl_markDemo_length, joinLevels_from_length.
Qed.

(** Level [i] of the result. *)
Lemma joinLevels_lookup names paths chaps flow demos (i : nat) :
  Forall is_uint16 demos →
  joinLevels names paths chaps flow demos !! i =
  (λ name, mkLevel name (default ""%string (paths !! i))
                   (default ""%string (chaps !! i))
                   (default [] (flow !! S i))
                   (bool_decide (Z.of_nat i ∈ demos))
                   (Puzzles Level_zero) (Pickups Level_zero)
                   (Keys Level_zero)) <$> names !! i.
Proof.
  intros Hdemos. unfold joinLevels.
  rewrite foldl_markDemo_lookup, joinLevels_from_lookup, lookup_tail by done.
  destruct (names !! i) as [name|]; simpl; [|done].
  by case_bool_decide.
Qed.

End joinLevels.

(** C8.  Demo marking in [joinLevels]: the levels marked [IsDemo] are exactly
    those whose index is in the demo list, and an index that is not below the
    number of levels changes nothing (taking it out of the list gives the same
    levels). *)
Theorem joinLevels_marks_demo_levels
    (names paths chaps : list string) (flow : list Sequence) (demos : list Z) :
  Forall is_uint16 demos →
  (∀ (i : nat) (lvl : Level),
     joinLevels names paths chaps flow demos !! i = Some lvl →
     IsDemo lvl = true ↔ Z.of_nat i ∈ demos) ∧
  (∀ (before after : list Z) (demo : Z),
     demos = before ++ demo :: after → len names ≤ demo →
     joinLevels names paths chaps flow demos =
     joinLevels names paths chaps flow (before ++ after)).
Proof.
  intros Hdemos. split.
  - intros i lvl. rewrite joinLevels_lookup by done.
    destruct (names !! i) as [name|]; simpl; [|done].
    intros [= <-]. simpl. apply bool_decide_eq_true.
  - intros before after demo -> Hout. unfold joinLevels.
    rewrite !foldl_app. simpl. f_equal.
    apply markDemo_out_of_range. unfold len in *.
    by rewrite foldl_markDemo_length, joinLevels_from_length.
Qed.

Lemma joinLevels_marks_demo_levels_witness :
  Forall is_uint16 [2; 99] ∧
  joinLevels five_names [] [] [] [2; 99] !! 2%nat
  = Some (mkLevel "c" "" "" [] true (replicate 4 ""%string)
                  (replicate 2 ""%string) (replicate 4 ""%string)) ∧
  (IsDemo (mkLevel "c" "" "" [] true (replicate 4 ""%string)
                   (replicate 2 ""%string) (replicate 4 ""%string)) = true
   ↔ 2 ∈ [2; 99]) ∧
  joinLevels five_names [] [] [] [2; 99] = joinLevels five_names [] [] [] [2].
Proof.
  assert (Hty : Forall is_uint16 [2; 99])
    by (repeat constructor; unfold is_uint16; lia).
  split; [exact Hty|].
  split; [reflexivity|].
  split.
  - apply (proj1 (joinLevels_marks_demo_levels five_names [] [] [] [2; 99] Hty)
             2%nat).
    reflexivity.
  - apply (proj2 (joinLevels_marks_demo_levels five_names [] [] [] [2; 99] Hty)
             [2] [] 99); [reflexivity | vm_compute; discriminate].
Defined.

(** ** The instruction scan *)

Section decodeSequence.

Implicit Types (chunk rest : list Z) (w arg i : Z) (fuel : nat).

#[local] Arguments len : simpl never.
#[local] Arguments index : simpl never.

Lemma len_cons {A} (x : A) (s : list A) : len (x :: s) = len s + 1.
Proof. unfold len. simpl. lia. Qed.

Lemma len_nonneg {A} (s : list A) : 0 ≤ len s.
Proof. unfold len. lia. Qed.

Lemma index_head {A} (x : A) (s : list A) : index (x :: s) 0 = Returned x.
Proof. done. Qed.

Lemma index_shift {A} (x : A) (s : list A) i :
  0 ≤ i → index (x :: s) (i + 1) = index s i.
Proof.
  intros Hi. unfold index.
  rewrite !(proj2 (Z.leb_le _ _)) by lia.
  by replace (Z.to_nat (i + 1)) with (S (Z.to_nat i)) by lia.
Qed.

(** A word in front of the chunk moves every position by one. *)
Lemma decode_from_shift fuel w chunk i :
  0 ≤ i → decode_from fuel (w :: chunk) (i + 1) = decode_from fuel chunk i.
Proof.
  revert i. induction fuel as [|fuel IH]; intros i Hi; simpl; [done|].
  rewrite len_cons.
  replace (i + 1 <? len chunk + 1) with (i <? len chunk) by lia.
  destruct (i <? len chunk); [|done].
  rewrite !index_shift by lia.
  destruct (index chunk i) as [typ|e]; simpl; [|done].
  destruct (hasArg typ).
  - destruct (index chunk (i + 1)) as [a|e]; simpl; [|done].
    by rewrite IH by lia.
  - by rewrite IH by lia.
Qed.

(** Any fuel that covers the words left gives the same result. *)
Lemma decode_from_fuel fuel fuel' chunk i :
  0 ≤ i → len chunk - i ≤ Z.of_nat fuel → len chunk - i ≤ Z.of_nat fuel' →
  decode_from fuel chunk i = decode_from fuel' chunk i.
Proof.
  revert fuel' i.
  induction fuel as [|fuel IH]; intros [|fuel'] i Hi Hf Hf'; simpl; try done.
  - by rewrite (proj2 (Z.ltb_ge _ _)) by lia.
  - by rewrite (proj2 (Z.ltb_ge _ _)) by lia.
  - destruct (i <? len chunk) eqn:Hlt; [|done].
    apply Z.ltb_lt in Hlt.
    destruct (index chunk i) as [typ|e]; simpl; [|done].
    destruct (hasArg typ).
    + destruct (index chunk (i + 1)) as [a|e]; simpl; [|done].
      by rewrite (IH fuel') by lia.
    + by rewrite (IH fuel') by lia.
Qed.

Lemma decode_from_S fuel chunk i :
  decode_from (S fuel) chunk i =
  if i <? len chunk then
    typ ← index chunk i;
    if hasArg typ then
      arg ← index chunk (i + 1);
      seq ← decode_from fuel chunk (i + 1 + 1);
      Returned (mkCommand typ arg :: seq)
    else
      seq ← decode_from fuel chunk (i + 1);
      Returned (mkCommand typ 0 :: seq)
  else Returned [].
Proof. done. Qed.

Lemma decodeSequence_nil : decodeSequence [] = Returned [].
Proof. done. Qed.

(** An opcode without argument takes one word. *)
Lemma decodeSequence_plain w rest :
  hasArg w = false →
  decodeSequence (w :: rest) = (mkCommand w 0 ::.) <$> decodeSequence rest.
Proof.
  intros Hw. unfold decodeSequence. simpl. rewrite Hw.
  rewrite (decode_from_shift _ w rest 0) by done.
  by destruct (decode_from _ rest 0).
Qed.

(** An opcode with argument takes two words. *)
Lemma decodeSequence_arg w arg rest :
  hasArg w = true →
  decodeSequence (w :: arg :: rest)
  = (mkCommand w arg ::.) <$> decodeSequence rest.
Proof.
  intros Hw. unfold decodeSequence. cbn [length]. rewrite decode_from_S.
  rewrite !len_cons, (proj2 (Z.ltb_lt _ _)) by (pose proof (len_nonneg rest); lia).
  rewrite index_head. cbn [mbind outcome_bind]. rewrite Hw.
  rewrite (index_shift w (arg :: rest) 0), index_head by done.
  cbn [mbind outcome_bind].
  change (0 + 1 + 1) with (1 + 1).
  rewrite (decode_from_shift _ w (arg :: rest) 1) by done.
  rewrite (decode_from_shift _ arg rest 0) by done.
  rewrite (decode_from_fuel (S (length rest)) (length rest) rest 0)
    by (unfold len; lia).
  by destruct (decode_from _ rest 0).
Qed.

(** An opcode with argument on the last word: the read of its argument is
    past the end of the chunk. *)
Lemma decodeSequence_arg_missing w :
  hasArg w = true → decodeSequence [w] = Panicked IndexOutOfRange.
Proof.
  intros Hw. unfold decodeSequence. simpl. by rewrite Hw.
Qed.

Lemma outcome_fmap_compose {A B C} (f : A → B) (g : B → C) (m : outcome A) :
  g <$> (f <$> m) = (g ∘ f) <$> m.
Proof. by destruct m. Qed.

(** Words that decode on their own decode the same in front of others. *)
Lemma decodeSequence_app chunk rest seq :
  decodeSequence chunk = Returned seq →
  decodeSequence (chunk ++ rest) = (seq ++.) <$> decodeSequence rest.
Proof.
  remember (length chunk) as n eqn:Hn. revert chunk seq Hn.
  induction n as [n IH] using lt_wf_ind. intros [|w chunk] seq Hn.
  - intros [= <-]. simpl. by destruct (decodeSequence rest).
  - destruct (hasArg w) eqn:Hw.
    + destruct chunk as [|arg chunk].
      * by rewrite decodeSequence_arg_missing.
      * rewrite decodeSequence_arg by done.
        intros (seq' & Hseq' & <-)%fmap_Returned. simpl.
        rewrite decodeSequence_arg by done.
        rewrite (IH (length chunk)) with (seq := seq')
          by (simpl in Hn; done || lia).
        by rewrite outcome_fmap_compose.
    + rewrite decodeSequence_plain by done.
      intros (seq' & Hseq' & <-)%fmap_Returned. simpl.
      rewrite decodeSequence_plain by done.
      rewrite (IH (length chunk)) with (seq := seq')
        by (simpl in Hn; done || lia).
      by rewrite outcome_fmap_compose.
Qed.

End decodeSequence.

(** C4.  The scan of [readSequenceArray] goes through the words from left to
    right: the word at hand is the opcode; when [hasArg] classifies it as
    carrying an argument the next word is its argument and the scan goes on
    two words further, otherwise the instruction has argument 0 and the scan
    goes on one word further.  Three opcodes without argument give three
    instructions, and an argument word is never read as an opcode. *)
Theorem decodeSequence_scan (w arg : Z) (rest : list Z) :
  decodeSequence [] = Returned [] ∧
  (hasArg w = false →
   decodeSequence (w :: rest) = (mkCommand w 0 ::.) <$> decodeSequence rest ∧
   decodeSequence [w; w; w]
   = Returned [mkCommand w 0; mkCommand w 0; mkCommand w 0]) ∧
  (hasArg w = true →
   decodeSequence (w :: arg :: rest)
   = (mkCommand w arg ::.) <$> decodeSequence rest ∧
   decodeSequence [w; arg] = Returned [mkCommand w arg]).
Proof.
  split; [apply decodeSequence_nil|]. split; intros Hw.
  - split; [by apply decodeSequence_plain|].
    by rewrite !decodeSequence_plain, decodeSequence_nil.
  - split; [by apply decodeSequence_arg|].
    by rewrite decodeSequence_arg, decodeSequence_nil.
Qed.

Lemma decodeSequence_scan_witness :
  hasArg OpEnd = false ∧ hasArg OpTrack = true ∧
  decodeSequence [OpEnd; OpEnd; OpEnd]
  = Returned [mkCommand OpEnd 0; mkCommand OpEnd 0; mkCommand OpEnd 0] ∧
  decodeSequence [OpTrack; OpEnd] = Returned [mkCommand OpTrack OpEnd].
Proof.
  split; [reflexivity|]. split; [reflexivity|]. split.
  - apply (proj1 (proj2 (decodeSequence_scan OpEnd 0 [])) eq_refl).
  - apply (proj2 (proj2 (decodeSequence_scan OpTrack OpEnd [])) eq_refl).
Defined.

(** C2.  A chunk that ends on an opcode with argument, after words that
    decode on their own: the argument is read at [chunk[len(chunk)]] and the
    run time stops the program with an index out of range.  No sequence is
    returned, and no decode failure is reported either. *)
Theorem decodeSequence_unterminated_panics (chunk : list Z) (seq : Sequence) (w : Z) :
  decodeSequence chunk = Returned seq → hasArg w = true →
  decodeSequence (chunk ++ [w]) = Panicked IndexOutOfRange.
Proof.
  intros Hchunk Hw.
  by rewrite (decodeSequence_app _ _ _ Hchunk), decodeSequence_arg_missing.
Qed.

Lemma decodeSequence_unterminated_panics_witness :
  decodeSequence [OpEnd] = Returned [mkCommand OpEnd 0] ∧
  hasArg OpPicture = true ∧
  decodeSequence ([OpEnd] ++ [OpPicture]) = Panicked IndexOutOfRange ∧
  readSequenceArray (le16 0 ++ le16 4 ++ le16 OpEnd ++ le16 OpPicture) 1
  = Panicked IndexOutOfRange.
Proof.
  split; [reflexivity|]. split; [reflexivity|]. split; [|reflexivity].
  apply (decodeSequence_unterminated_panics [OpEnd] [mkCommand OpEnd 0] OpPicture);
    reflexivity.
Defined.

(** ** The command formatter *)

Section FormatCommand.

Implicit Types (s : Script) (c : Command) (o i : Z).

(** [s[i]] fails exactly when [i] is not a position of [s]. *)
Lemma index_Returned {A} (t : list A) i (x : A) :
  index t i = Returned x ↔ 0 ≤ i ∧ t !! Z.to_nat i = Some x.
Proof.
  unfold index. destruct (0 <=? i) eqn:Hi.
  - apply Z.leb_le in Hi. destruct (t !! Z.to_nat i) as [y|].
    + split; [by intros [= ->] | by intros [_ [= ->]]].
    + split; [done | by intros [_ ?]].
  - apply Z.leb_gt in Hi. split; [done | lia].
Qed.

Lemma index_out_of_range {A} (t : list A) i :
  ¬ (0 ≤ i < len t) → index t i = Panicked IndexOutOfRange.
Proof.
  intros Hi. unfold index. destruct (0 <=? i) eqn:H0; [|done].
  apply Z.leb_le in H0. rewrite lookup_ge_None_2; [done|].
  unfold len in Hi. lia.
Qed.

Lemma index_in_range {A} (t : list A) i :
  0 ≤ i < len t → ∃ x, index t i = Returned x ∧ t !! Z.to_nat i = Some x.
Proof.
  intros Hi. unfold len in Hi.
  destruct (lookup_lt_is_Some_2 t (Z.to_nat i)) as [x Hx]; [lia|].
  exists x. split; [|done]. apply index_Returned. split; [lia | done].
Qed.



(** The name of an opcode that is not negative: its entry in [tOpcodes], or
    ["Unknown"] past the end of the table. *)
Lemma Opcode_String_name o :
  0 ≤ o →
  Opcode_String o
  = Returned (default "Unknown"%string (tOpcodes !! Z.to_nat o)).
Proof.
  intros Ho. unfold Opcode_String. destruct (o <? len tOpcodes) eqn:Hlt.
  - apply Z.ltb_lt in Hlt.
    destruct (index_in_range tOpcodes o) as (name & -> & ->); done.
  - apply Z.ltb_ge in Hlt. rewrite lookup_ge_None_2; [done|].
    unfold len in Hlt. lia.
Qed.

End FormatCommand.







(** ** The offset table *)

Section offset_table.

Implicit Types (offs : list Z) (d : list Z) (lo hi n k : Z).

Lemma len_fmap {A B} (f : A → B) (s : list A) : len (f <$> s) = len s.
Proof. unfold len. by rewrite length_fmap. Qed.

Lemma sub_fmap {A B} (f : A → B) (s : list A) lo hi :
  sub (f <$> s) lo hi = f <$> sub s lo hi.
Proof. unfold sub. by rewrite fmap_take, fmap_drop. Qed.

Lemma sub_length {A} (s : list A) lo hi :
  0 ≤ lo ≤ hi → hi ≤ len s → len (sub s lo hi) = hi - lo.
Proof.
  intros ? ?. unfold sub, len in *. rewrite length_take, length_drop. lia.
Qed.

Lemma sub_to_end {A} (s : list A) lo :
  sub s lo (len s) = drop (Z.to_nat lo) s.
Proof.
  unfold sub, len. apply take_ge. rewrite length_drop. lia.
Qed.

Lemma slice_Returned {A} (s : list A) lo hi :
  0 ≤ lo ≤ hi → hi ≤ len s → slice s lo hi = Returned (sub s lo hi).
Proof.
  intros [? ?] ?. unfold slice.
  by rewrite !(proj2 (Z.leb_le _ _)) by lia.
Qed.

Lemma slice_Panicked {A} (s : list A) lo hi :
  ¬ (0 ≤ lo ≤ hi ∧ hi ≤ len s) →
  slice s lo hi = Panicked SliceBoundsOutOfRange.
Proof.
  intros Hno. unfold slice.
  destruct (0 <=? lo) eqn:H1; [|done].
  destruct (lo <=? hi) eqn:H2; [|done].
  destruct (hi <=? len s) eqn:H3; [|done].
  exfalso. apply Hno. lia.
Qed.

(** The end of the record that starts at the head of a rising list. *)
Lemma rising_next lo offs n offset rest :
  offs = offset :: rest → rising lo offs n = true →
  lo ≤ offset ∧
  offset ≤ match rest with [] => n | to :: _ => to end ∧
  match rest with [] => n | to :: _ => to end ≤ n ∧
  rising offset rest n = true.
Proof.
  intros -> [Hlo Hrest]%andb_true_iff. apply Z.leb_le in Hlo.
  split; [done|]. split; [|split; [|done]].
  - destruct rest as [|to rest']; simpl in Hrest.
    + by apply Z.leb_le.
    + apply andb_true_iff in Hrest as [?%Z.leb_le _]. done.
  - destruct rest as [|to rest']; [done|]. clear Hlo.
    revert offset to Hrest.
    induction rest' as [|to' rest' IH]; intros offset to; simpl.
    + intros [_ ?%Z.leb_le]%andb_true_iff. done.
    + intros [_ Hrest]%andb_true_iff.
      pose proof (IH _ _ Hrest) as Hto'.
      apply andb_true_iff in Hrest as [?%Z.leb_le _]. lia.
Qed.

Lemma rising_weaken lo lo' offs n :
  lo' ≤ lo → rising lo offs n = true → rising lo' offs n = true.
Proof.
  intros Hlo. destruct offs as [|offset rest]; simpl.
  - intros ?%Z.leb_le. apply Z.leb_le. lia.
  - intros [?%Z.leb_le ->]%andb_true_iff.
    rewrite andb_true_r. apply Z.leb_le. lia.
Qed.

(** The records depend on the payload from the first offset on only. *)
Lemma records_agree {A} offs lo (d1 d2 : list A) :
  0 ≤ lo → rising lo offs (len d1) = true → length d1 = length d2 →
  drop (Z.to_nat lo) d1 = drop (Z.to_nat lo) d2 →
  records offs d1 = records offs d2.
Proof.
  intros Hlo Hrise Hlen. revert lo Hlo Hrise.
  induction offs as [|offset rest IH]; intros lo Hlo Hrise Hdrop; simpl;
    [done|].
  destruct (rising_next _ _ _ _ _ eq_refl Hrise) as (Ho & _ & _ & Hrest).
  assert (Hdrop' : drop (Z.to_nat offset) d1 = drop (Z.to_nat offset) d2).
  { replace (Z.to_nat offset)
      with (Z.to_nat lo + (Z.to_nat offset - Z.to_nat lo))%nat by lia.
    by rewrite <- !drop_drop, Hdrop. }
  f_equal.
  - unfold sub, len. by rewrite Hdrop', Hlen.
  - apply (IH offset); [lia | done | done].
Qed.

Lemma records_fmap {A B} (f : A → B) offs (s : list A) :
  records offs (f <$> s) = (fmap f : list A → list B) <$> records offs s.
Proof.
  induction offs as [|offset rest IH]; simpl; [done|].
  by rewrite IH, len_fmap, sub_fmap.
Qed.

Lemma records_length {A} offs (s : list A) :
  length (records offs s) = length offs.
Proof. induction offs as [|offset rest IH]; simpl; [done | by rewrite IH]. Qed.

Lemma xor_bytes_length k d : length (xor_bytes k d) = length d.
Proof. unfold xor_bytes. case_match; [apply length_fmap | done]. Qed.

(** XOR with the same key twice gives the byte back. *)
Lemma xor_bytes_involutive k d : xor_bytes k (xor_bytes k d) = d.
Proof.
  unfold xor_bytes. destruct (0 <? k); [|done].
  rewrite <- list_fmap_compose. rewrite <- (list_fmap_id d) at 2.
  apply list_fmap_ext. intros _ b _. simpl.
  by rewrite Z.lxor_assoc, Z.lxor_nilpotent, Z.lxor_0_r.
Qed.

Lemma xor_payload_length k offs d :
  length (xor_payload k offs d) = length d.
Proof.
  destruct offs as [|offset rest]; simpl; [done|].
  rewrite length_app, xor_bytes_length, length_take, length_drop. lia.
Qed.

Lemma xor_payload_involutive k offs d :
  xor_payload k offs (xor_payload k offs d) = d.
Proof.
  destruct offs as [|offset rest]; simpl; [done|].
  destruct (decide (Z.to_nat offset ≤ length d)%nat) as [Hle|Hgt].
  - rewrite take_app_length', drop_app_length'
      by (rewrite length_take; lia).
    by rewrite xor_bytes_involutive, take_drop.
  - assert (drop (Z.to_nat offset) d = []) as Hdrop by (apply drop_ge; lia).
    assert (take (Z.to_nat offset) d = d) as Htake by (apply take_ge; lia).
    assert (xor_bytes k [] = []) as Hnil by (unfold xor_bytes; by case_match).
    rewrite Hdrop, Htake, Hnil, app_nil_r.
    by rewrite Hdrop, Htake, Hnil, app_nil_r.
Qed.

(** The records of the transformed payload are the transformed records. *)
Lemma records_xor_payload k offs d :
  rising 0 offs (len d) = true →
  records offs (xor_payload k offs d) = xor_bytes k <$> records offs d.
Proof.
  intros Hrise. unfold xor_bytes. destruct (0 <? k) eqn:Hk.
  - rewrite <- records_fmap.
    destruct offs as [|offset rest]; [done|].
    destruct (rising_next _ _ _ _ _ eq_refl Hrise) as (Ho & Hto & Hn & Hrest).
    assert (offset ≤ len d) by (destruct rest; lia).
    apply (records_agree _ offset); [lia | | |].
    + simpl. rewrite (proj2 (Z.leb_le offset offset)) by lia. simpl.
      unfold len in *. unfold xor_bytes. rewrite Hk.
      rewrite length_app, length_fmap, length_take, length_drop.
      by replace (Z.of_nat (Z.to_nat offset `min` length d
                             + (length d - Z.to_nat offset)))
        with (Z.of_nat (length d)) by lia.
    + rewrite xor_payload_length. by rewrite length_fmap.
    + simpl. unfold xor_bytes. rewrite Hk.
      rewrite drop_app_length' by (unfold len in *; rewrite length_take; lia).
      by rewrite fmap_drop.
  - replace (xor_payload k offs d) with d.
    + rewrite <- (list_fmap_id (records offs d)) at 1.
      apply list_fmap_ext. done.
    + destruct offs; simpl; [done|]. unfold xor_bytes. rewrite Hk.
      by rewrite take_drop.
Qed.

End offset_table.

Section Strings.

Implicit Types (offs : list Z) (d : list Z) (lo hi n k : Z).

Lemma rising_from_next offset rest n :
  rising offset rest n = true →
  rising (match rest with [] => n | to :: _ => to end) rest n = true.
Proof.
  destruct rest as [|to rest]; simpl.
  - intros _. apply Z.leb_refl.
  - intros [_ ->]%andb_true_iff. by rewrite Z.leb_refl.
Qed.

(** The payload after one round of the loop of [Strings]. *)
Lemma Strings_round_payload k d offset to :
  0 ≤ offset ≤ to → to ≤ len d →
  (if 0 <? k then overwrite d offset (xor_bytes k (sub d offset to)) else d)
  = take (Z.to_nat offset) d ++ xor_bytes k (sub d offset to)
    ++ drop (Z.to_nat to) d.
Proof.
  intros Ho Hto. unfold xor_bytes, overwrite. destruct (0 <? k).
  - rewrite length_fmap.
    pose proof (sub_length d offset to Ho Hto) as Hlen. unfold len in Hlen.
    by replace (Z.to_nat offset + length (sub d offset to))%nat
      with (Z.to_nat to) by lia.
  - unfold sub.
    rewrite <- (take_drop (Z.to_nat offset) d) at 1. f_equal.
    rewrite <- (take_drop (Z.to_nat (to - offset)) (drop (Z.to_nat offset) d))
      at 1.
    f_equal. rewrite drop_drop. f_equal. lia.
Qed.

Lemma xor_payload_next k rest d :
  let to := match rest with [] => len d | to :: _ => to end in
  xor_payload k rest d
  = take (Z.to_nat to) d ++ xor_bytes k (drop (Z.to_nat to) d).
Proof.
  destruct rest as [|to rest]; simpl; [|done].
  unfold len. rewrite Nat2Z.id, take_ge, drop_ge by lia.
  unfold xor_bytes. case_match; by rewrite app_nil_r.
Qed.

Lemma xor_bytes_app k d1 d2 :
  xor_bytes k (d1 ++ d2) = xor_bytes k d1 ++ xor_bytes k d2.
Proof. unfold xor_bytes. case_match; [apply fmap_app | done]. Qed.

(** [Strings] on offsets that rise within the payload: every record comes
    out transformed, and so does the payload from the first offset on. *)
Lemma Strings_from_rising k offs d lo :
  0 ≤ lo → rising lo offs (len d) = true →
  Strings_from k offs d
  = Returned (string_of_bytes <$> (xor_bytes k <$> records offs d),
              xor_payload k offs d).
Proof.
  revert d lo. induction offs as [|offset rest IH]; intros d lo Hlo Hrise;
    [done|].
  destruct (rising_next _ _ _ _ _ eq_refl Hrise) as (Ho & Hto & Hn & Hrest).
  cbn [Strings_from records].
  set (to := match rest with [] => len d | to :: _ => to end) in *.
  rewrite slice_Returned by lia. cbn [mbind outcome_bind].
  change (if 0 <? k then (λ b, Z.lxor b k) <$> sub d offset to
          else sub d offset to) with (xor_bytes k (sub d offset to)).
  rewrite Strings_round_payload by lia.
  set (d1 := take (Z.to_nat offset) d ++ xor_bytes k (sub d offset to)
             ++ drop (Z.to_nat to) d).
  assert (Hlen1 : length d1 = length d).
  { unfold d1. rewrite !length_app, xor_bytes_length, length_take, length_drop.
    pose proof (sub_length d offset to) as Hsub. unfold len in *. lia. }
  assert (Hhead1 : length (take (Z.to_nat offset) d
                           ++ xor_bytes k (sub d offset to)) = Z.to_nat to).
  { rewrite length_app, xor_bytes_length, length_take.
    pose proof (sub_length d offset to) as Hsub. unfold len in *. lia. }
  assert (Hdrop1 : drop (Z.to_nat to) d1 = drop (Z.to_nat to) d).
  { unfold d1. rewrite app_assoc. by rewrite drop_app_length'. }
  assert (Hto1 : match rest with [] => len d1 | to :: _ => to end = to).
  { unfold to, len. by rewrite Hlen1. }
  assert (Hrest1 : rising offset rest (len d1) = true).
  { unfold len. by rewrite Hlen1. }
  rewrite (IH d1 offset) by (done || lia). cbn [mbind outcome_bind].
  f_equal. f_equal.
  - rewrite !fmap_cons. f_equal. f_equal. f_equal.
    apply (records_agree _ to); try done.
    + lia.
    + apply rising_from_next in Hrest1. by rewrite Hto1 in Hrest1.
  - pose proof (xor_payload_next k rest d1) as Hnext. simpl in Hnext.
    rewrite Hto1 in Hnext. rewrite Hnext, Hdrop1.
    unfold d1 at 1. rewrite app_assoc, take_app_length' by done.
    simpl. rewrite <- app_assoc. f_equal.
    rewrite <- xor_bytes_app. f_equal. unfold sub.
    etrans; [|apply (take_drop (Z.to_nat (to - offset)))].
    f_equal. rewrite drop_drop. f_equal. lia.
Qed.

(** Offsets that do not rise within the payload stop [Strings]. *)
Lemma Strings_from_not_rising k offs d :
  rising 0 offs (len d) = false →
  Strings_from k offs d = Panicked SliceBoundsOutOfRange.
Proof.
  revert d. induction offs as [|offset rest IH]; intros d.
  - simpl. intros ?%Z.leb_gt. pose proof (len_nonneg d). lia.
  - intros Hrise. cbn [Strings_from].
    set (to := match rest with [] => len d | to :: _ => to end) in *.
    destruct (decide (0 ≤ offset ≤ to ∧ to ≤ len d)) as [[Ho Hto]|Hbad];
      [|by rewrite slice_Panicked].
    rewrite slice_Returned by lia. cbn [mbind outcome_bind].
    change (if 0 <? k then (λ b, Z.lxor b k) <$> sub d offset to
            else sub d offset to) with (xor_bytes k (sub d offset to)).
    rewrite Strings_round_payload by lia.
    set (d1 := take (Z.to_nat offset) d ++ xor_bytes k (sub d offset to)
               ++ drop (Z.to_nat to) d).
    assert (Hlen1 : len d1 = len d).
    { unfold d1, len.
      rewrite !length_app, xor_bytes_length, length_take, length_drop.
      pose proof (sub_length d offset to) as Hsub. unfold len in *. lia. }
    rewrite (IH d1); [done|]. rewrite Hlen1.
    simpl in Hrise. rewrite (proj2 (Z.leb_le 0 offset)) in Hrise by lia.
    simpl in Hrise. destruct rest as [|to' rest']; simpl in *.
    + apply Z.leb_gt in Hrise. unfold to in *. lia.
    + unfold to in *.
      rewrite (proj2 (Z.leb_le offset to')) in Hrise by lia.
      by rewrite (proj2 (Z.leb_le 0 to')) by lia.
Qed.

End Strings.

Section views.

Implicit Types (offs : list Z) (d ws : list Z) (lo hi n k : Z).

Lemma sub_drop {A} (s : list A) lo hi :
  0 ≤ lo ≤ hi → sub s lo hi ++ drop (Z.to_nat hi) s = drop (Z.to_nat lo) s.
Proof.
  intros ?. unfold sub.
  etrans; [|apply (take_drop (Z.to_nat (hi - lo)))].
  f_equal. rewrite drop_drop. f_equal. lia.
Qed.

(** The records of rising offsets tile the payload from the first offset
    on. *)
Lemma records_concat {A} offs lo (s : list A) :
  0 ≤ lo → rising lo offs (len s) = true →
  concat (records offs s)
  = match offs with
    | [] => []
    | offset :: _ => drop (Z.to_nat offset) s
    end.
Proof.
  revert lo. induction offs as [|offset rest IH]; intros lo Hlo Hrise;
    [done|].
  destruct (rising_next _ _ _ _ _ eq_refl Hrise) as (Ho & Hto & Hn & Hrest).
  cbn [records concat]. rewrite (IH offset) by (done || lia).
  destruct rest as [|to rest].
  - by rewrite sub_to_end, app_nil_r.
  - apply sub_drop. lia.
Qed.

(** [U16] on offsets whose halves rise within the words. *)
Lemma U16_from_rising offs ws lo :
  0 ≤ lo → rising lo (half <$> offs) (len ws) = true →
  U16_from offs ws = Returned (records (half <$> offs) ws).
Proof.
  revert lo. induction offs as [|offset rest IH]; intros lo Hlo Hrise;
    [done|].
  rewrite fmap_cons in Hrise.
  destruct (rising_next _ _ _ _ _ eq_refl Hrise) as (Ho & Hto & Hn & Hrest).
  cbn [U16_from]. destruct rest as [|to rest].
  - simpl in *. unfold half in *. by rewrite slice_Returned by lia.
  - rewrite fmap_cons in *. unfold half in Ho, Hto, Hn.
    rewrite slice_Returned by lia. cbn [mbind outcome_bind].
    rewrite (IH (half offset)) by (done || unfold half; lia).
    done.
Qed.

Lemma U16_from_not_rising offs ws :
  rising 0 (half <$> offs) (len ws) = false →
  U16_from offs ws = Panicked SliceBoundsOutOfRange.
Proof.
  induction offs as [|offset rest IH].
  - simpl. intros ?%Z.leb_gt. pose proof (len_nonneg ws). lia.
  - intros Hrise. cbn [U16_from]. rewrite fmap_cons in Hrise.
    simpl in Hrise. fold (half offset).
    destruct rest as [|to rest].
    + simpl in Hrise. apply andb_false_iff in Hrise.
      rewrite slice_Panicked; [done|].
      rewrite !Z.leb_gt in Hrise. lia.
    + rewrite fmap_cons in *. simpl in Hrise. fold (half to).
      destruct (decide (0 ≤ half offset ≤ half to ∧ half to ≤ len ws))
        as [[Ho Hto]|Hbad]; [|by rewrite slice_Panicked].
      rewrite slice_Returned by lia. cbn [mbind outcome_bind].
      rewrite IH; [done|]. simpl.
      rewrite !(proj2 (Z.leb_le _ _)) in Hrise by lia. simpl in Hrise.
      by rewrite (proj2 (Z.leb_le 0 (half to))) by lia.
Qed.

(** [U16] sees an offset through its half only. *)
Lemma U16_from_halves offs offs' ws :
  half <$> offs = half <$> offs' → U16_from offs ws = U16_from offs' ws.
Proof.
  revert offs'. induction offs as [|offset rest IH]; intros [|offset' rest'];
    try done.
  rewrite !fmap_cons. intros [= Ho Hrest]. cbn [U16_from].
  unfold half in Ho. rewrite Ho.
  destruct rest as [|to rest], rest' as [|to' rest']; try done.
  rewrite (IH _ Hrest). rewrite !fmap_cons in Hrest.
  injection Hrest as Hto _. unfold half in Hto. by rewrite Hto.
Qed.

Lemma words_of_bytes_length d :
  len (words_of_bytes d) = len d / 2.
Proof.
  unfold len. remember (length d) as n eqn:Hn. revert d Hn.
  induction n as [n IH] using lt_wf_ind. intros [|b0 [|b1 d]] ->; try done.
  cbn [words_of_bytes length].
  specialize (IH (length d) ltac:(simpl; lia) d eq_refl).
  rewrite Nat2Z.inj_succ, IH, !Nat2Z.inj_succ.
  replace (Z.succ (Z.succ (Z.of_nat (length d))))
    with (Z.of_nat (length d) + 1 * 2) by lia.
  rewrite Z.div_add by done. lia.
Qed.

End views.

Section bytes.

Implicit Types (d : list Z) (b k : Z).

Lemma string_of_bytes_app d1 d2 :
  string_of_bytes (d1 ++ d2)
  = (string_of_bytes d1 +:+ string_of_bytes d2)%string.
Proof.
  induction d1 as [|b d1 IH]; [done|].
  cbn [app string_of_bytes foldr]. fold (string_of_bytes (d1 ++ d2)).
  fold (string_of_bytes d1). rewrite IH. done.
Qed.

Lemma concat_strings_records (rs : list (list Z)) :
  concat_strings (string_of_bytes <$> rs) = string_of_bytes (concat rs).
Proof.
  induction rs as [|r rs IH]; [done|].
  cbn [fmap list_fmap concat_strings foldr concat].
  fold (concat_strings (string_of_bytes <$> rs)).
  by rewrite IH, string_of_bytes_app.
Qed.

Lemma byte_to_ascii_inj b1 b2 :
  is_uint8 b1 → is_uint8 b2 → byte_to_ascii b1 = byte_to_ascii b2 → b1 = b2.
Proof.
  unfold is_uint8, byte_to_ascii. intros H1 H2 Heq.
  apply (f_equal N_of_ascii) in Heq.
  rewrite !N_ascii_embedding in Heq by lia. lia.
Qed.

Lemma lxor_uint8 b k : is_uint8 b → is_uint8 k → is_uint8 (Z.lxor b k).
Proof.
  unfold is_uint8. intros Hb Hk.
  assert (Hnn : 0 ≤ Z.lxor b k) by (apply Z.lxor_nonneg; lia).
  split; [done|]. change 256 with (2 ^ 8).
  apply (Z.bounded_iff_bits_nonneg 8); [lia | done |].
  intros l Hl. rewrite Z.lxor_spec.
  assert (Hbits : ∀ x, 0 ≤ x < 256 → Z.testbit x l = false).
  { intros x Hx.
    apply (proj1 (Z.bounded_iff_bits_nonneg 8 x ltac:(lia) ltac:(lia)));
      [change (2 ^ 8) with 256; lia | done]. }
  by rewrite !Hbits.
Qed.

Lemma lxor_changes b k : k ≠ 0 → Z.lxor b k ≠ b.
Proof.
  intros Hk Heq. apply Hk.
  assert (Hk' : k = Z.lxor b (Z.lxor b k))
    by (by rewrite <- Z.lxor_assoc, Z.lxor_nilpotent, Z.lxor_0_l).
  by rewrite Heq, Z.lxor_nilpotent in Hk'.
Qed.

(** The XOR pass changes the string of every run that has a byte. *)
Lemma xor_bytes_changes k d :
  0 < k < 256 → Forall is_uint8 d → d ≠ [] →
  string_of_bytes (xor_bytes k d) ≠ string_of_bytes d.
Proof.
  intros Hk Hd Hne. destruct d as [|b d]; [done|].
  unfold xor_bytes. rewrite (proj2 (Z.ltb_lt 0 k)) by lia.
  cbn [fmap list_fmap string_of_bytes foldr]. intros [= Hb _].
  apply Forall_cons in Hd as [Hb8 _].
  apply byte_to_ascii_inj in Hb; [| apply lxor_uint8; [done | unfold is_uint8; lia] | done].
  by apply lxor_changes in Hb; [|lia].
Qed.

Lemma xor_bytes_nil k : xor_bytes k [] = [].
Proof. unfold xor_bytes. by case_match. Qed.

Lemma xor_bytes_zero d : xor_bytes 0 d = d.
Proof. done. Qed.

Lemma xor_payload_zero offs d : xor_payload 0 offs d = d.
Proof. destruct offs; simpl; [done | apply take_drop]. Qed.

Lemma LittleEndian_Uint16_add b0 b1 :
  is_uint8 b0 → LittleEndian_Uint16 b0 b1 = b0 + 256 * b1.
Proof.
  unfold is_uint8, LittleEndian_Uint16. intros Hb0.
  rewrite Z.shiftl_mul_pow2 by lia. change (2 ^ 8) with 256.
  rewrite (Z.mul_comm b1). symmetry. apply Z.add_nocarry_lor.
  apply Z.bits_inj'. intros l Hl. rewrite Z.land_spec, Z.bits_0.
  destruct (decide (l < 8)) as [Hlow|Hhigh].
  - replace (256 * b1) with (b1 * 2 ^ 8) by lia.
    rewrite Z.mul_pow2_bits_low by done. apply andb_false_r.
  - rewrite (proj1 (Z.bounded_iff_bits_nonneg 8 b0 ltac:(lia) ltac:(lia)));
      [done | change (2 ^ 8) with 256; lia | lia].
Qed.

(** A payload of whole words is the bytes of its words. *)
Lemma bytes_of_words_of_bytes d :
  Forall is_uint8 d → Z.even (len d) = true →
  bytes_of_words (words_of_bytes d) = d.
Proof.
  unfold len. remember (length d) as n eqn:Hn. revert d Hn.
  induction n as [n IH] using lt_wf_ind.
  intros [|b0 [|b1 d]] -> Hd Heven; try done.
  apply Forall_cons in Hd as [Hb0 Hd]. apply Forall_cons in Hd as [Hb1 Hd].
  cbn [words_of_bytes]. unfold bytes_of_words. cbn [mbind list_bind].
  fold (bytes_of_words (words_of_bytes d)).
  rewrite (IH (length d) ltac:(simpl; lia) d eq_refl Hd).
  - rewrite LittleEndian_Uint16_add by done. unfold is_uint8 in *.
    assert (Hlo : (b0 + 256 * b1) `mod` 256 = b0).
    { rewrite Z.mul_comm, Z.mod_add by done. apply Z.mod_small. lia. }
    assert (Hhi : (b0 + 256 * b1) `div` 256 = b1).
    { rewrite Z.mul_comm, Z.div_add by done.
      rewrite (Z.div_small b0) by lia. lia. }
    by rewrite Hlo, Hhi.
  - cbn [length] in Heven. rewrite !Nat2Z.inj_succ in Heven.
    by rewrite <- Z.add_1_r, <- Z.add_1_r, <- Z.add_assoc, Z.even_add_even
      in Heven by (by exists 1).
Qed.

End bytes.

Section table_views.

Implicit Types (m : multiByteArray) (k : Z).

Lemma Strings_valid m k :
  valid m →
  Strings m k
  = Returned (string_of_bytes <$> (xor_bytes k <$> records (offsets m) (data m)),
              newMultiByteArray (offsets m)
                                (xor_payload k (offsets m) (data m))).
Proof.
  intros Hm. unfold Strings.
  by rewrite (Strings_from_rising k _ _ 0) by done.
Qed.

Lemma Strings_invalid m k :
  ¬ valid m → Strings m k = Panicked SliceBoundsOutOfRange.
Proof.
  intros Hm. unfold Strings. rewrite Strings_from_not_rising; [done|].
  unfold valid in Hm. by destruct (rising _ _ _).
Qed.

Lemma valid_xor_payload m k :
  valid m →
  valid (newMultiByteArray (offsets m) (xor_payload k (offsets m) (data m))).
Proof.
  unfold valid, len. simpl. by rewrite xor_payload_length.
Qed.

Lemma U16_rising m :
  rising 0 (half <$> offsets m) (len (words_of_bytes (data m))) = true →
  U16 m = Returned (records (half <$> offsets m) (words_of_bytes (data m))).
Proof. intros Hm. unfold U16. by apply (U16_from_rising _ _ 0). Qed.

Lemma U16_invalid m :
  rising 0 (half <$> offsets m) (len (words_of_bytes (data m))) = false →
  U16 m = Panicked SliceBoundsOutOfRange.
Proof. intros Hm. unfold U16. by apply U16_from_not_rising. Qed.

End table_views.

(** The second call of [Strings] with the same key, on the table as the
    first call left it. *)
Lemma Strings_second_call (m : multiByteArray) (k : Z) :
  valid m →
  Strings (newMultiByteArray (offsets m) (xor_payload k (offsets m) (data m))) k
  = Returned (string_of_bytes <$> records (offsets m) (data m), m).
Proof.
  intros Hm. destruct m as [offs d].
  rewrite Strings_valid
    by exact (valid_xor_payload (newMultiByteArray offs d) k Hm).
  simpl. rewrite records_xor_payload, xor_payload_involutive by done.
  do 2 f_equal. rewrite <- !list_fmap_compose.
  apply list_fmap_ext. intros _ r _. simpl.
  by rewrite xor_bytes_involutive.
Qed.

Lemma Strings_key_zero (m : multiByteArray) :
  valid m →
  Strings m 0 = Returned (string_of_bytes <$> records (offsets m) (data m), m).
Proof.
  intros Hm. destruct m as [offs d].
  rewrite (Strings_valid _ 0) by done. simpl.
  rewrite xor_payload_zero. do 2 f_equal. rewrite <- list_fmap_compose.
  by apply list_fmap_ext.
Qed.

(** C6.  On a valid offset table, [Strings] with a key [k] and then
    [Strings] with [k] again on the same table gives the bytes the table had
    at first: the second call returns what key 0 returns on the table as it
    was, record by record, and leaves the payload as it was. *)
Theorem Strings_twice_restores (m : multiByteArray) (k : Z) :
  valid m → k ≠ 0 →
  ∃ strs1 m1 strs2,
    Strings m k = Returned (strs1, m1) ∧
    Strings m1 k = Returned (strs2, m) ∧
    Strings m 0 = Returned (strs2, m) ∧
    strs2 = string_of_bytes <$> records (offsets m) (data m).
Proof.
  intros Hm _.
  eexists _, _, (string_of_bytes <$> records (offsets m) (data m)).
  split; [by apply Strings_valid|].
  split; [by apply Strings_second_call|].
  split; [by apply Strings_key_zero | done].
Qed.

Lemma Strings_twice_restores_witness :
  valid table_AB_C ∧ 1 ≠ 0 ∧
  ∃ strs1 m1 strs2,
    Strings table_AB_C 1 = Returned (strs1, m1) ∧
    Strings m1 1 = Returned (strs2, table_AB_C) ∧
    Strings table_AB_C 0 = Returned (strs2, table_AB_C) ∧
    strs2 = string_of_bytes <$> records (offsets table_AB_C) (data table_AB_C).
Proof.
  split; [reflexivity|]. split; [discriminate|].
  apply (Strings_twice_restores table_AB_C 1); [reflexivity | discriminate].
Defined.

(** C10, as the code has it.  With a key from 1 to 255 [Strings] transforms
    the payload where it lies: after the call the table holds the transformed
    bytes from its first offset on.  A second call with the same key starts
    from that payload and returns the strings of the bytes the table had at
    first, which differ from the strings of the first call exactly when some
    record has a byte. *)
Theorem Strings_transforms_in_place (m : multiByteArray) (k : Z) :
  valid m → Forall is_uint8 (data m) → 0 < k < 256 →
  ∃ strs1 m1 strs2 m2,
    Strings m k = Returned (strs1, m1) ∧
    m1 = newMultiByteArray (offsets m) (xor_payload k (offsets m) (data m)) ∧
    Strings m1 k = Returned (strs2, m2) ∧
    strs1 = string_of_bytes <$> (xor_bytes k <$> records (offsets m) (data m)) ∧
    strs2 = string_of_bytes <$> records (offsets m) (data m) ∧
    (strs2 ≠ strs1 ↔ ∃ r, r ∈ records (offsets m) (data m) ∧ r ≠ []).
Proof.
  intros Hm Hbytes Hk.
  eexists _, _, (string_of_bytes <$> records (offsets m) (data m)), m.
  split; [by apply Strings_valid|]. split; [done|].
  split; [by apply Strings_second_call|]. split; [done|]. split; [done|].
  split.
  - (* a difference comes from a record with a byte *)
    intros Hdiff.
    destruct (decide (Forall (λ r, r = []) (records (offsets m) (data m))))
      as [Hall|Hsome].
    + exfalso. apply Hdiff. rewrite <- list_fmap_compose.
      apply list_fmap_ext. intros _ r Hr%list_elem_of_lookup_2. simpl.
      rewrite Forall_forall in Hall. by rewrite (Hall r Hr), xor_bytes_nil.
    + apply not_Forall_Exists in Hsome; [|apply _].
      apply Exists_exists in Hsome as (r & Hr & Hne). by exists r.
  - (* a record with a byte makes a difference *)
    intros (r & Hr & Hne) Heq.
    assert (Hr8 : Forall is_uint8 r).
    { clear -Hr Hbytes. revert Hr. generalize (offsets m) as offs.
      induction offs as [|offset rest IH]; simpl; [by intros ?%elem_of_nil|].
      intros [->|Hr]%elem_of_cons; [|by apply IH].
      unfold sub. by apply Forall_take, Forall_drop. }
    apply (xor_bytes_changes k r Hk Hr8 Hne).
    rewrite <- list_fmap_compose in Heq.
    apply list_elem_of_lookup in Hr as [i Hi].
    apply (f_equal (λ l, l !! i)) in Heq.
    rewrite !list_lookup_fmap, Hi in Heq. simpl in Heq. by injection Heq.
Qed.

Lemma Strings_transforms_in_place_witness :
  valid table_AB_C ∧ Forall is_uint8 (data table_AB_C) ∧ 0 < 1 < 256 ∧
  ∃ strs1 m1 strs2 m2,
    Strings table_AB_C 1 = Returned (strs1, m1) ∧
    m1 = newMultiByteArray (offsets table_AB_C)
           (xor_payload 1 (offsets table_AB_C) (data table_AB_C)) ∧
    Strings m1 1 = Returned (strs2, m2) ∧
    strs1 = string_of_bytes
              <$> (xor_bytes 1 <$> records (offsets table_AB_C) (data table_AB_C)) ∧
    strs2 = string_of_bytes <$> records (offsets table_AB_C) (data table_AB_C) ∧
    (strs2 ≠ strs1
     ↔ ∃ r, r ∈ records (offsets table_AB_C) (data table_AB_C) ∧ r ≠ []).
Proof.
  assert (H8 : Forall is_uint8 (data table_AB_C))
    by (repeat constructor; unfold is_uint8; lia).
  split; [reflexivity|]. split; [exact H8|]. split; [lia|].
  apply (Strings_transforms_in_place table_AB_C 1); [reflexivity | exact H8 | lia].
Defined.

(** A table of one record that has no byte: the second call of C10 returns
    the strings of the first. *)
Lemma Strings_second_call_same_strings :
  valid (newMultiByteArray [0] []) ∧
  Strings (newMultiByteArray [0] []) 1
  = Returned ([""%string], newMultiByteArray [0] []) ∧
  ¬ ∃ strs1 m1 strs2 m2,
      Strings (newMultiByteArray [0] []) 1 = Returned (strs1, m1) ∧
      Strings m1 1 = Returned (strs2, m2) ∧
      strs2 ≠ strs1.
Proof.
  split; [reflexivity|]. split; [reflexivity|].
  intros (strs1 & m1 & strs2 & m2 & [= <- <-] & [= <- _] & Hne). done.
Qed.

(** C7, as the code has it.  A view that returns gives one record for each
    offset.  On a valid table the strings of the text view, one after the
    other, are the payload from the first offset on (transformed when the key
    is not 0), which is the whole payload when the first offset is 0; the
    chunks of the word view, when the halved offsets rise within the words,
    are the words of the payload from the first halved offset on, and the
    words of a payload of even length give back its bytes. *)
Theorem views_count_and_cover (m : multiByteArray) (k : Z) :
  (∀ strs m', Strings m k = Returned (strs, m') →
              length strs = length (offsets m)) ∧
  (∀ chunks, U16 m = Returned chunks → length chunks = length (offsets m)) ∧
  (∀ offset rest,
     offsets m = offset :: rest → valid m →
     ∃ strs m',
       Strings m k = Returned (strs, m') ∧
       concat_strings strs
       = string_of_bytes (xor_bytes k (drop (Z.to_nat offset) (data m))) ∧
       (offset = 0 →
        concat_strings strs = string_of_bytes (xor_bytes k (data m)))) ∧
  (∀ offset rest,
     offsets m = offset :: rest →
     rising 0 (half <$> offsets m) (len (words_of_bytes (data m))) = true →
     ∃ chunks,
       U16 m = Returned chunks ∧
       concat chunks = drop (Z.to_nat (half offset)) (words_of_bytes (data m)) ∧
       (half offset = 0 → Forall is_uint8 (data m) →
        Z.even (len (data m)) = true →
        bytes_of_words (concat chunks) = data m)).
Proof.
  split; [|split; [|split]].
  - intros strs m'. destruct (rising 0 (offsets m) (len (data m))) eqn:Hm.
    + rewrite Strings_valid by done. intros [= <- _].
      by rewrite !length_fmap, records_length.
    + rewrite Strings_invalid; [done|]. unfold valid. by rewrite Hm.
  - intros chunks.
    destruct (rising 0 (half <$> offsets m) (len (words_of_bytes (data m))))
      eqn:Hm.
    + rewrite U16_rising by done. intros [= <-].
      by rewrite records_length, length_fmap.
    + unfold U16. by rewrite U16_from_not_rising.
  - intros offset rest Hoffs Hm. eexists _, _.
    split; [by apply Strings_valid|].
    assert (Hcat : concat_strings
                     (string_of_bytes
                        <$> (xor_bytes k <$> records (offsets m) (data m)))
                   = string_of_bytes
                       (xor_bytes k (drop (Z.to_nat offset) (data m)))).
    { rewrite concat_strings_records, <- records_xor_payload by done.
      rewrite (records_concat _ 0)
        by (done || by apply valid_xor_payload).
      rewrite Hoffs. simpl. f_equal.
      unfold valid in Hm. rewrite Hoffs in Hm.
      destruct (rising_next _ _ _ _ _ eq_refl Hm) as (Ho & Hto & Hn & _).
      rewrite drop_app_length'; [done|].
      rewrite length_take. unfold len in *. destruct rest; lia. }
    split; [done|]. intros ->. by rewrite Hcat.
  - intros offset rest Hoffs Hm. eexists. split; [by apply U16_rising|].
    assert (Hcat : concat (records (half <$> offsets m)
                                   (words_of_bytes (data m)))
                   = drop (Z.to_nat (half offset)) (words_of_bytes (data m))).
    { rewrite (records_concat _ 0) by done. by rewrite Hoffs. }
    split; [done|]. intros Hzero Hbytes Heven.
    rewrite Hcat, Hzero. by apply bytes_of_words_of_bytes.
Qed.

Lemma views_count_and_cover_witness :
  Strings table_AB_C 1 = Returned (["@C"; "B"]%string,
                                   newMultiByteArray [0; 2] [64; 67; 66]) ∧
  length ["@C"; "B"]%string = length (offsets table_AB_C) ∧
  U16 (newMultiByteArray [0; 2] [1; 0; 2; 0]) = Returned [[1]; [2]] ∧
  length [[1]; [2]] = length (offsets (newMultiByteArray [0; 2] [1; 0; 2; 0])) ∧
  (∃ strs m',
     Strings table_AB_C 1 = Returned (strs, m') ∧
     concat_strings strs
     = string_of_bytes (xor_bytes 1 (drop (Z.to_nat 0) (data table_AB_C))) ∧
     (0 = 0 →
      concat_strings strs = string_of_bytes (xor_bytes 1 (data table_AB_C)))) ∧
  (∃ chunks,
     U16 (newMultiByteArray [0; 2] [1; 0; 2; 0]) = Returned chunks ∧
     concat chunks
     = drop (Z.to_nat (half 0)) (words_of_bytes [1; 0; 2; 0]) ∧
     (half 0 = 0 → Forall is_uint8 [1; 0; 2; 0] →
      Z.even (len [1; 0; 2; 0]) = true →
      bytes_of_words (concat chunks) = [1; 0; 2; 0])).
Proof.
  split; [reflexivity|]. split.
  { apply (proj1 (views_count_and_cover table_AB_C 1) _ _ eq_refl). }
  split; [reflexivity|]. split.
  { apply (proj1 (proj2 (views_count_and_cover
                           (newMultiByteArray [0; 2] [1; 0; 2; 0]) 0))
             _ eq_refl). }
  split.
  { apply (proj1 (proj2 (proj2 (views_count_and_cover table_AB_C 1)))
             0 [2] eq_refl eq_refl). }
  apply (proj2 (proj2 (proj2 (views_count_and_cover
                                (newMultiByteArray [0; 2] [1; 0; 2; 0]) 0)))
           0 [2] eq_refl eq_refl).
Defined.

(** A table whose first offset is 1: the text view returns the payload
    without its first byte, the word view of a table whose first offset is 2
    returns the payload without its first word, and a table without offsets
    returns nothing of its payload. *)
Lemma views_do_not_cover_payload :
  Strings (newMultiByteArray [1] [65; 66]) 0
  = Returned (["B"%string], newMultiByteArray [1] [65; 66]) ∧
  concat_strings ["B"%string] ≠ string_of_bytes [65; 66] ∧
  U16 (newMultiByteArray [2] [1; 0; 2; 0]) = Returned [[2]] ∧
  bytes_of_words (concat [[2]]) ≠ [1; 0; 2; 0] ∧
  Strings (newMultiByteArray [] [65; 66]) 0
  = Returned ([], newMultiByteArray [] [65; 66]) ∧
  concat_strings [] ≠ string_of_bytes [65; 66].
Proof. repeat split; (reflexivity || discriminate). Qed.

(** C3, as the code has it.  A table whose offsets do not rise within the
    payload gives no record in the text view, and one whose halved offsets do
    not rise within the words gives none in the word view: no record comes out
    cut short.  An offset that is not even is no failure in the word view:
    every offset is halved rounding down, so the view cuts the words at the
    even offset below it, and returns the records whenever the halved offsets
    rise within the words. *)
Theorem views_never_cut_short_and_round_down (m : multiByteArray) (k : Z) :
  (¬ valid m → is_Returned (Strings m k) = false) ∧
  (rising 0 (half <$> offsets m) (len (words_of_bytes (data m))) = false →
   is_Returned (U16 m) = false) ∧
  (rising 0 (half <$> offsets m) (len (words_of_bytes (data m))) = true →
   U16 m = Returned (records (half <$> offsets m) (words_of_bytes (data m)))) ∧
  U16 m = U16 (newMultiByteArray ((λ offset, 2 * half offset) <$> offsets m)
                                 (data m)).
Proof.
  split; [|split; [|split]].
  - intros Hm. by rewrite Strings_invalid.
  - intros Hm. by rewrite U16_invalid.
  - apply U16_rising.
  - unfold U16. simpl. apply U16_from_halves.
    rewrite <- list_fmap_compose. apply list_fmap_ext. intros _ offset _.
    simpl. unfold half. by rewrite Z.mul_comm, Z.div_mul.
Qed.

Lemma views_never_cut_short_and_round_down_witness :
  ¬ valid (newMultiByteArray [0; 8] [65; 66; 67; 68]) ∧
  is_Returned (Strings (newMultiByteArray [0; 8] [65; 66; 67; 68]) 0) = false ∧
  is_Returned (U16 (newMultiByteArray [0; 8] [65; 66; 67; 68])) = false ∧
  U16 (newMultiByteArray [0; 3] [1; 0; 2; 0])
  = Returned (records (half <$> [0; 3]) (words_of_bytes [1; 0; 2; 0])) ∧
  U16 (newMultiByteArray [0; 3] [1; 0; 2; 0])
  = U16 (newMultiByteArray [0; 2] [1; 0; 2; 0]).
Proof.
  assert (Hbad : ¬ valid (newMultiByteArray [0; 8] [65; 66; 67; 68]))
    by (vm_compute; discriminate).
  split; [exact Hbad|]. split.
  { apply (proj1 (views_never_cut_short_and_round_down _ 0) Hbad). }
  split.
  { apply (proj1 (proj2 (views_never_cut_short_and_round_down
                           (newMultiByteArray [0; 8] [65; 66; 67; 68]) 0))).
    reflexivity. }
  split.
  { apply (proj1 (proj2 (proj2 (views_never_cut_short_and_round_down
                                  (newMultiByteArray [0; 3] [1; 0; 2; 0]) 0)))).
    reflexivity. }
  apply (proj2 (proj2 (proj2 (views_never_cut_short_and_round_down
                                (newMultiByteArray [0; 3] [1; 0; 2; 0]) 0)))).
Defined.

(** Offsets that are not even, over a payload of two words: the word view
    returns the records cut at the even offsets below, also for the offset 5
    that lies past the four bytes of the payload. *)
Lemma U16_accepts_odd_offsets :
  Z.odd 3 = true ∧
  U16 (newMultiByteArray [0; 3] [1; 0; 2; 0]) = Returned [[1]; [2]] ∧
  Z.odd 5 = true ∧ len [1; 0; 2; 0] < 5 ∧
  U16 (newMultiByteArray [0; 5] [1; 0; 2; 0]) = Returned [[1; 2]; []].
Proof. repeat split. Qed.

(** ** The assembler *)

(** Taking apart a call that returned: the first call of the chain returned
    [pat], which is fact [E], and the rest of the chain is left in [H]. *)
Tactic Notation "bind_inv" hyp(H) "as" simple_intropattern(pat) ident(E) :=
  apply bind_Returned in H as (pat & E & H); cbn beta iota zeta in H.

Section Read.

Implicit Types (r : reader) (count xor : Z) (levels : list Level).

Lemma Strings_length m k strs m' :
  Strings m k = Returned (strs, m') → length strs = length (offsets m).
Proof.
  destruct (rising 0 (offsets m) (len (data m))) eqn:Hm.
  - rewrite Strings_valid by done. intros [= <- _].
    by rewrite !length_fmap, records_length.
  - rewrite Strings_invalid; [done|]. unfold valid. by rewrite Hm.
Qed.

Lemma U16_length m chunks :
  U16 m = Returned chunks → length chunks = length (offsets m).
Proof.
  destruct (rising 0 (half <$> offsets m) (len (words_of_bytes (data m))))
    eqn:Hm.
  - rewrite U16_rising by done. intros [= <-].
    by rewrite records_length, length_fmap.
  - unfold U16. by rewrite U16_from_not_rising.
Qed.

Lemma words_of_bytes_length_nat (d : list Z) :
  length (words_of_bytes d) = (length d / 2)%nat.
Proof.
  pose proof (words_of_bytes_length d) as H. unfold len in H.
  apply Nat2Z.inj. rewrite H. by rewrite Nat2Z.inj_div.
Qed.

(** A read of [count] words gives [count] words, from the source or as the
    zeros [make] put there. *)
Lemma read_uint16s_length count r :
  length (read_uint16s count r).1 = Z.to_nat count.
Proof.
  unfold read_uint16s, binary_Read.
  destruct (2 * count <=? len r) eqn:Hlen; simpl.
  - apply Z.leb_le in Hlen. unfold len in Hlen.
    rewrite words_of_bytes_length_nat, length_take.
    apply Nat2Z.inj. rewrite Nat2Z.inj_div.
    destruct (decide (0 ≤ count)).
    + replace (Z.of_nat (Z.to_nat (2 * count) `min` length r))
        with (count * 2) by lia.
      rewrite Z.div_mul by done. lia.
    + replace (Z.to_nat (2 * count)) with 0%nat by lia.
      replace (Z.to_nat count) with 0%nat by lia. done.
  - apply length_replicate.
Qed.

Lemma readMultiByteArray_offsets r count :
  length (offsets (readMultiByteArray r count).1) = Z.to_nat count.
Proof.
  unfold readMultiByteArray.
  pose proof (read_uint16s_length count r) as Hlen.
  destruct (read_uint16s count r) as [offs r1].
  destruct (read_uint16 0 r1) as [size r2].
  by destruct (read_uint8s size r2) as [d r3].
Qed.

Lemma readStringArray_length r count xor strs r' :
  readStringArray r count xor = Returned (strs, r') →
  length strs = Z.to_nat count.
Proof.
  unfold readStringArray.
  pose proof (readMultiByteArray_offsets r count) as Hoffs.
  destruct (readMultiByteArray r count) as [m r1]. intros H.
  bind_inv H as [strs1 m1] Hstrs. injection H as <- _.
  apply Strings_length in Hstrs. by rewrite Hstrs.
Qed.

Lemma decodeSequences_length chunks seqs :
  decodeSequences chunks = Returned seqs → length seqs = length chunks.
Proof.
  revert seqs. induction chunks as [|chunk chunks IH]; intros seqs; simpl.
  - by intros [= <-].
  - intros H. bind_inv H as seq Hseq. bind_inv H as seqs' Hseqs.
    injection H as <-. simpl. f_equal. by apply IH.
Qed.

Lemma readSequenceArray_length r count seqs r' :
  readSequenceArray r count = Returned (seqs, r') →
  length seqs = Z.to_nat count.
Proof.
  unfold readSequenceArray.
  pose proof (readMultiByteArray_offsets r count) as Hoffs.
  destruct (readMultiByteArray r count) as [m r1]. intros H.
  bind_inv H as chunks Hchunks. bind_inv H as seqs1 Hseqs.
  injection H as <- _.
  apply decodeSequences_length in Hseqs. apply U16_length in Hchunks.
  by rewrite Hseqs, Hchunks.
Qed.

(** The demo marks and the slot loops leave the flow of every level as
    [joinLevels] set it. *)
Lemma markDemo_Flow levels demo :
  Flow <$> markDemo levels demo = Flow <$> levels.
Proof.
  unfold markDemo. case_match; [|done].
  rewrite (list_fmap_alter Flow setDemo id).
  - apply list_eq. intros i. rewrite list_lookup_alter.
    case_decide; [subst|done]. by destruct (_ !! _).
  - by apply Forall_true.
Qed.

Lemma foldl_markDemo_Flow demos levels :
  Flow <$> foldl markDemo levels demos = Flow <$> levels.
Proof.
  revert levels. induction demos as [|d demos IH]; intros levels; simpl;
    [done|].
  by rewrite IH, markDemo_Flow.
Qed.

Lemma scatter_Flow n set levels puzzles levels' :
  (∀ v l, Flow (set v l) = Flow l) →
  scatter n set levels puzzles = Returned levels' →
  Flow <$> levels' = Flow <$> levels.
Proof.
  intros Hset. revert levels puzzles levels'.
  induction n as [|n IH]; intros levels puzzles levels'; simpl.
  - by intros [= <-].
  - destruct levels as [|l levels]; [done|].
    destruct puzzles as [|v puzzles]; [done|].
    intros H. bind_inv H as levels1 Hrest. injection H as <-.
    rewrite !fmap_cons, Hset. f_equal. by eapply IH.
Qed.

Lemma readSlots_Flow k set i head levels r levels' r' :
  (∀ i v l, Flow (set i v l) = Flow l) →
  readSlots k set i head levels r = Returned (levels', r') →
  Flow <$> levels' = Flow <$> levels.
Proof.
  intros Hset. revert i levels r.
  induction k as [|k IH]; intros i levels r; simpl.
  - by intros [= <- _].
  - intros H. bind_inv H as [puzzles r1] Hread.
    bind_inv H as levels1 Hscatter.
    apply scatter_Flow in Hscatter; [|apply Hset].
    apply IH in H. by rewrite H, Hscatter.
Qed.

Lemma joinLevels_Flow names paths chaps flow demos (i : nat) :
  (Flow <$> joinLevels names paths chaps flow demos) !! i
  = (λ _, default [] (flow !! S i)) <$> names !! i.
Proof.
  unfold joinLevels.
  rewrite foldl_markDemo_Flow, list_lookup_fmap, joinLevels_from_lookup.
  rewrite lookup_tail. by destruct (names !! i).
Qed.

(** What [Read] returns, in terms of the tables it decoded. *)
Lemma Read_decoded_levels r d :
  Read_decoded r = Returned d →
  let n := header.NumLevels (readHeader r).1 in
  length (levelNames d) = Z.to_nat n ∧
  length (gameFlow d) = Z.to_nat (uint16 (n + 1)) ∧
  length (Levels (script d)) = length (levelNames d) ∧
  ∀ i : nat,
    (Flow <$> Levels (script d)) !! i
    = (λ _, default [] (gameFlow d !! S i)) <$> levelNames d !! i.
Proof.
  unfold Read_decoded. destruct (readHeader r) as [head r0]. cbn [fst].
  intros H.
  bind_inv H as [names r1] Hnames.
  bind_inv H as [chapterPaths r2] Hchapters.
  bind_inv H as [titlePaths r3] Htitles.
  bind_inv H as [fmvPaths r4] Hfmvs.
  bind_inv H as [levelPaths r5] Hpaths.
  bind_inv H as [cutscenePaths r6] Hcutscenes.
  bind_inv H as [flow r7] Hflow.
  destruct (readDemoLevels r7 _) as [demoLevels r8].
  bind_inv H as [gameStrings r9] Hstrings.
  bind_inv H as [extraStrings r10] Hextra.
  bind_inv H as [levels1 r11] Hpuzzles.
  bind_inv H as [levels2 r12] Hpickups.
  bind_inv H as [levels3 r13] Hkeys.
  injection H as <-. simpl.
  apply readStringArray_length in Hnames.
  apply readSequenceArray_length in Hflow.
  apply readSlots_Flow in Hpuzzles, Hpickups, Hkeys; try done.
  assert (HFlow : Flow <$> levels3
                  = Flow <$> joinLevels names levelPaths chapterPaths flow
                                        demoLevels)
    by (by rewrite Hkeys, Hpickups, Hpuzzles).
  split; [done|]. split; [done|]. split.
  - apply (f_equal length) in HFlow.
    by rewrite !length_fmap, joinLevels_length in HFlow.
  - intros i. by rewrite HFlow, joinLevels_Flow.
Qed.

End Read.

(** C5, as the code has it.  [Read] returns one level for each level name it
    decoded, and it reads the gameflow table with [NumLevels + 1] records
    counted in 16 bits.  When the header has fewer than 65535 levels, the flow
    of level [i] is the gameflow sequence [i + 1]; sequence 0 is given to no
    level. *)
Theorem Read_levels_flow (r : reader) (d : decoded) :
  Read_decoded r = Returned d →
  Read r = Returned (script d) ∧
  length (Levels (script d)) = length (levelNames d) ∧
  length (gameFlow d) = Z.to_nat (uint16 (header.NumLevels (readHeader r).1 + 1)) ∧
  (header.NumLevels (readHeader r).1 < 65535 →
   ∀ (i : nat) (lvl : Level),
     Levels (script d) !! i = Some lvl → gameFlow d !! S i = Some (Flow lvl)).
Proof.
  intros Hd. split; [unfold Read; by rewrite Hd|].
  destruct (Read_decoded_levels r d Hd) as (Hnames & Hflow & Hlevels & HFlow).
  split; [done|]. split; [done|].
  intros Hn i lvl Hlvl. specialize (HFlow i).
  rewrite list_lookup_fmap, Hlvl in HFlow. simpl in HFlow.
  destruct (levelNames d !! i) as [name|] eqn:Hname; [|done].
  simpl in HFlow. injection HFlow as ->.
  apply lookup_lt_Some in Hname.
  destruct (lookup_lt_is_Some_2 (gameFlow d) (S i)) as [seq Hseq];
    [|unfold Sequence in *; by rewrite Hseq].
  rewrite Hflow. rewrite Hnames in Hname. unfold uint16.
  rewrite Z.mod_small by lia. lia.
Qed.

Lemma Read_levels_flow_witness :
  ∃ d lvl,
    Read_decoded jungle_file = Returned d ∧
    header.NumLevels (readHeader jungle_file).1 < 65535 ∧
    Levels (script d) !! 0%nat = Some lvl ∧
    Name lvl = "Jungle"%string ∧
    Flow lvl = [mkCommand OpTrack 34; mkCommand OpLoadPic 0;
                mkCommand OpLevel 0; mkCommand OpEnd 0] ∧
    gameFlow d !! 1%nat = Some (Flow lvl).
Proof.
  eexists _, _.
  split; [vm_compute; reflexivity|].
  split; [vm_compute; reflexivity|].
  split; [vm_compute; reflexivity|].
  split; [reflexivity|]. split; [reflexivity|].
  refine (proj2 (proj2 (proj2 (Read_levels_flow jungle_file _ _))) _ 0%nat _ _);
    vm_compute; reflexivity.
Defined.

(** With 65535 levels in the header the count of the gameflow table wraps
    to 0: [Read] returns 65535 levels and no gameflow sequence at all, so the
    flow of level 0 is not the sequence 1. *)
Lemma Read_wide_file_has_no_flow :
  ∃ d,
    Read_decoded wide_file = Returned d ∧
    len (Levels (script d)) = 65535 ∧
    len (levelNames d) = 65535 ∧
    gameFlow d = [] ∧
    ¬ (∀ (i : nat) (lvl : Level),
         Levels (script d) !! i = Some lvl →
         gameFlow d !! S i = Some (Flow lvl)).
Proof.
  assert (Hret : is_Returned (Read_decoded wide_file) = true)
    by (vm_compute; reflexivity).
  assert (Hn : header.NumLevels (readHeader wide_file).1 = 65535)
    by (vm_compute; reflexivity).
  destruct (Read_decoded wide_file) as [d|e] eqn:Hd; [|discriminate Hret].
  exists d. split; [reflexivity|].
  destruct (Read_decoded_levels _ d Hd) as (Hnames & Hflow & Hlevels & _).
  rewrite Hn in Hnames, Hflow. clear Hd Hret Hn.
  change (Z.to_nat (uint16 (65535 + 1))) with 0%nat in Hflow.
  apply nil_length_inv in Hflow.
  assert (Hcount : len (levelNames d) = 65535)
    by (unfold len; rewrite Hnames; apply Z2Nat.id; discriminate).
  assert (Hcount' : len (Levels (script d)) = 65535)
    by (unfold len in *; rewrite Hlevels; exact Hcount).
  split; [exact Hcount'|]. split; [exact Hcount|]. split; [exact Hflow|].
  intros Hall.
  destruct (lookup_lt_is_Some_2 (Levels (script d)) 0) as [lvl Hlvl].
  { unfold len in Hcount'. apply Nat2Z.inj_lt. rewrite Hcount'. reflexivity. }
  specialize (Hall 0%nat lvl Hlvl). rewrite Hflow in Hall. discriminate Hall.
Qed.

(** C1.  A byte source that ends within the header: [binary.Read] fails, the
    failure is dropped, and [Read] goes on with the zero header and a source
    that has nothing left.  It returns a script of version 0 with a
    description of 256 zero bytes, no level and 41 empty extra strings; it
    reports no failure. *)
Theorem Read_truncated_header_returns_script (r : reader) :
  len r < header.size →
  Read r = Returned (mkScript 0 (string_of_bytes (replicate 256 0)) 0
                              [] [] [] [] [] (replicate 41 ""%string)).
Proof.
  intros Hshort. unfold Read, Read_decoded, readHeader, binary_Read.
  rewrite (proj2 (Z.leb_gt _ _)) by done. reflexivity.
Qed.

Lemma Read_truncated_header_returns_script_witness :
  len (replicate 100 7) < header.size ∧
  Read (replicate 100 7)
  = Returned (mkScript 0 (string_of_bytes (replicate 256 0)) 0
                       [] [] [] [] [] (replicate 41 ""%string)).
Proof.
  split; [reflexivity|].
  apply (Read_truncated_header_returns_script (replicate 100 7)). reflexivity.
Defined.

(** * More properties of the package *)

(** ** Names of opcodes, languages and commands *)

(** X1.  [Opcode.String] guards the upper end of [tOpcodes] only: it panics
    exactly on the negative opcodes, gives ["Unknown"] exactly from 23 on,
    and the entry of the table in between. *)
Theorem Opcode_String_range (o : Z) :
  (Opcode_String o = Panicked IndexOutOfRange ↔ o < 0) ∧
  (Opcode_String o = Returned "Unknown"%string ↔ 23 ≤ o) ∧
  (0 ≤ o < 23 → ∃ name, tOpcodes !! Z.to_nat o = Some name ∧
                         Opcode_String o = Returned name).
Proof.
  destruct (decide (o < 0)) as [Hneg|Hpos].
  - assert (Hpanic : Opcode_String o = Panicked IndexOutOfRange).
    { unfold Opcode_String. rewrite (proj2 (Z.ltb_lt _ _)) by (change (len tOpcodes) with 23; lia).
      apply index_out_of_range. lia. }
    rewrite Hpanic. split; [done|].
    split; [split; [done | lia] | intros ?; lia].
  - rewrite Opcode_String_name by lia.
    split; [split; [done | lia]|].
    destruct (decide (o < 23)) as [Hin|Hout].
    + assert (Hname : ∃ name, tOpcodes !! Z.to_nat o = Some name
                              ∧ name ≠ "Unknown"%string).
      { assert (Hn : (Z.to_nat o < 23)%nat) by lia. revert Hn.
        generalize (Z.to_nat o) as n. intros n Hn.
        do 23 (destruct n as [|n]; [eexists; split; [reflexivity | discriminate]|]).
        lia. }
      destruct Hname as (name & Hname & Hne). rewrite Hname. simpl.
      split; [split; [by intros [= ->] | lia]|].
      intros _. by exists name.
    + rewrite lookup_ge_None_2 by (simpl; lia). simpl.
      split; [split; [lia | done] | intros ?; lia].
Qed.

Lemma Opcode_String_range_witness :
  ∃ name, tOpcodes !! Z.to_nat OpComplete = Some name ∧
          Opcode_String OpComplete = Returned name.
Proof.
  apply (proj2 (proj2 (Opcode_String_range OpComplete))).
  unfold OpComplete. lia.
Defined.

(** X2.  [Language.String] has the same guard, and a [Language] is a [uint8]:
    it never panics, and it gives ["Unknown"] exactly from 7 on. *)
Theorem Language_String_total (l : Z) :
  is_uint8 l →
  ∃ name, Language_String l = Returned name ∧
          (name = "Unknown"%string ↔ 7 ≤ l) ∧
          (l < 7 → tLanguages !! Z.to_nat l = Some name).
Proof.
  intros [Hl _]. unfold Language_String.
  destruct (l <? len tLanguages) eqn:Hlt.
  - apply Z.ltb_lt in Hlt. change (len tLanguages) with 7 in Hlt.
    assert (Hname : ∃ name, tLanguages !! Z.to_nat l = Some name
                            ∧ name ≠ "Unknown"%string).
    { assert (Hn : (Z.to_nat l < 7)%nat) by lia. revert Hn.
      generalize (Z.to_nat l) as n. intros n Hn.
      do 7 (destruct n as [|n]; [eexists; split; [reflexivity | discriminate]|]).
      lia. }
    destruct Hname as (name & Hname & Hne). exists name.
    split; [apply index_Returned; split; [lia | done]|].
    split; [split; [done | lia] | done].
  - apply Z.ltb_ge in Hlt. change (len tLanguages) with 7 in Hlt.
    exists "Unknown"%string. split; [done|]. split; [done | lia].
Qed.

Lemma Language_String_total_witness :
  ∃ name, Language_String 2 = Returned name ∧
          (name = "Unknown"%string ↔ 7 ≤ 2) ∧
          (2 < 7 → tLanguages !! Z.to_nat 2 = Some name).
Proof. apply (Language_String_total 2). unfold is_uint8. lia. Defined.

(** X3.  [FormatCommand] differs from [Command.String] on the four opcodes
    with a table only: on every other command, whatever the script, the two
    give the same; and [Command.String] returns on every command whose opcode
    is not negative. *)
Theorem FormatCommand_is_String_elsewhere (s : Script) (c : Command) :
  (Op c ∉ [OpLoadPic; OpFmv; OpLevel; OpCine] →
   FormatCommand s c = Command_String c) ∧
  (0 ≤ Op c → ∃ text, Command_String c = Returned text).
Proof.
  destruct c as [o arg]. unfold FormatCommand, Command_String. simpl. split.
  - intros Ho. rewrite !not_elem_of_cons in Ho.
    destruct Ho as (? & ? & ? & ? & _).
    destruct (hasArg o); simpl; [|done].
    by rewrite !(proj2 (Z.eqb_neq _ _)) by done.
  - intros Ho. destruct (hasArg o); [by eexists|].
    rewrite Opcode_String_name by done. by eexists.
Qed.

Lemma FormatCommand_is_String_elsewhere_witness :
  FormatCommand jungle (mkCommand OpTrack 34)
  = Command_String (mkCommand OpTrack 34) ∧
  ∃ text, Command_String (mkCommand OpTrack 34) = Returned text.
Proof.
  split.
  - apply (proj1 (FormatCommand_is_String_elsewhere jungle (mkCommand OpTrack 34))).
    rewrite !not_elem_of_cons. repeat split; try discriminate.
    apply not_elem_of_nil.
  - apply (proj2 (FormatCommand_is_String_elsewhere jungle (mkCommand OpTrack 34))).
    unfold OpTrack. simpl. lia.
Defined.

(** ** The instruction scan, both ways *)

(** Induction along the scan: over a chunk by the instructions it holds. *)
Lemma scan_ind (P : list Z → Prop) :
  P [] →
  (∀ w rest, hasArg w = false → P rest → P (w :: rest)) →
  (∀ w, hasArg w = true → P [w]) →
  (∀ w arg rest, hasArg w = true → P rest → P (w :: arg :: rest)) →
  ∀ chunk, P chunk.
Proof.
  intros Hnil Hplain Hlast Harg chunk.
  remember (length chunk) as n eqn:Hn. revert chunk Hn.
  induction n as [n IH] using lt_wf_ind. intros [|w [|arg rest]] ->.
  - done.
  - destruct (hasArg w) eqn:Hw; [by apply Hlast | by apply Hplain].
  - destruct (hasArg w) eqn:Hw.
    + apply Harg; [done|]. apply (IH (length rest)); [simpl; lia | done].
    + apply Hplain; [done|]. apply (IH (length (arg :: rest))); [simpl; lia | done].
Qed.

(** What the scan returns, read back as words. *)
Lemma decodeSequence_Returned_words chunk seq :
  decodeSequence chunk = Returned seq →
  words_of_sequence seq = chunk ∧ Forall plain_command seq.
Proof.
  revert seq. induction chunk as
      [|w rest Hw IH|w Hw|w arg rest Hw IH] using scan_ind; intros seq.
  - rewrite decodeSequence_nil. by intros [= <-].
  - rewrite decodeSequence_plain by done.
    intros (seq' & Hseq' & <-)%fmap_Returned.
    destruct (IH _ Hseq') as [<- Hplain]. split.
    + unfold words_of_sequence. simpl. unfold words_of_command at 1. simpl.
      by rewrite Hw.
    + by constructor.
  - by rewrite decodeSequence_arg_missing.
  - rewrite decodeSequence_arg by done.
    intros (seq' & Hseq' & <-)%fmap_Returned.
    destruct (IH _ Hseq') as [<- Hplain]. split.
    + unfold words_of_sequence. simpl. unfold words_of_command at 1. simpl.
      by rewrite Hw.
    + constructor; [|done]. unfold plain_command. simpl. congruence.
Qed.

Lemma decodeSequence_from_words seq :
  Forall plain_command seq →
  decodeSequence (words_of_sequence seq) = Returned seq.
Proof.
  induction 1 as [|c seq Hc _ IH]; [done|].
  change (words_of_sequence (c :: seq))
    with (words_of_command c ++ words_of_sequence seq).
  destruct c as [o arg]. unfold words_of_command, plain_command in *.
  cbn [Op Arg] in *. destruct (hasArg o) eqn:Ho; cbn [app].
  - by rewrite decodeSequence_arg, IH by done.
  - by rewrite decodeSequence_plain, IH, Hc by done.
Qed.

(** X4.  The scan loses nothing: the words of the sequence it returns, each
    opcode followed by its argument when it has one, are the chunk, and every
    instruction without argument has argument 0.  So two chunks that decode
    to the same sequence are the same chunk, and a chunk of [n] words gives at
    most [n] and at least [n/2] instructions. *)
Theorem decodeSequence_words (chunk : list Z) (seq : Sequence) :
  decodeSequence chunk = Returned seq →
  words_of_sequence seq = chunk ∧
  Forall plain_command seq ∧
  (∀ chunk', decodeSequence chunk' = Returned seq → chunk' = chunk) ∧
  (length seq ≤ length chunk ≤ 2 * length seq)%nat.
Proof.
  intros Hdec.
  destruct (decodeSequence_Returned_words _ _ Hdec) as [Hchunk Hplain].
  split; [done|]. split; [done|]. split.
  - intros chunk' Hdec'.
    destruct (decodeSequence_Returned_words _ _ Hdec') as [<- _]. done.
  - rewrite <- Hchunk. clear. unfold words_of_sequence.
    induction seq as [|c seq IH]; [simpl; lia|].
    change ((c :: seq) ≫= words_of_command)
      with (words_of_command c ++ (seq ≫= words_of_command)).
    rewrite length_app. cbn [length].
    assert (1 ≤ length (words_of_command c) ≤ 2)%nat
      by (unfold words_of_command; destruct (hasArg (Op c)); simpl; lia).
    lia.
Qed.

Lemma decodeSequence_words_witness :
  words_of_sequence [mkCommand OpTrack 34; mkCommand OpEnd 0]
  = [OpTrack; 34; OpEnd].
Proof.
  apply (proj1 (decodeSequence_words [OpTrack; 34; OpEnd]
                  [mkCommand OpTrack 34; mkCommand OpEnd 0] eq_refl)).
Defined.

(** X5.  The sequences the scan can return are those whose instructions
    without argument have argument 0, each of them from its own words: the
    words of a sequence decode to that sequence exactly when it is such a
    sequence. *)
Theorem decodeSequence_of_words (seq : Sequence) :
  decodeSequence (words_of_sequence seq) = Returned seq ↔
  Forall plain_command seq.
Proof.
  split.
  - intros Hdec. apply (decodeSequence_Returned_words _ _ Hdec).
  - apply decodeSequence_from_words.
Qed.

Lemma decodeSequence_of_words_witness :
  decodeSequence (words_of_sequence [mkCommand OpTrack 34; mkCommand OpEnd 0])
  = Returned [mkCommand OpTrack 34; mkCommand OpEnd 0].
Proof.
  apply (proj2 (decodeSequence_of_words
                  [mkCommand OpTrack 34; mkCommand OpEnd 0])).
  repeat constructor; unfold plain_command; simpl; discriminate.
Defined.

(** X6.  The scan has one way to fail: it stops with an index out of range
    exactly when the chunk ends on an opcode with argument after words that
    decode on their own, and it never stops in another way. *)
Theorem decodeSequence_panics_only_unterminated (chunk : list Z) :
  (decodeSequence chunk = Panicked IndexOutOfRange ↔
   ∃ before seq w,
     chunk = before ++ [w] ∧ decodeSequence before = Returned seq ∧
     hasArg w = true) ∧
  decodeSequence chunk ≠ Panicked SliceBoundsOutOfRange.
Proof.
  assert (Hfail : ∀ e, decodeSequence chunk = Panicked e →
            e = IndexOutOfRange ∧
            ∃ before seq w,
              chunk = before ++ [w] ∧ decodeSequence before = Returned seq ∧
              hasArg w = true).
  { induction chunk as [|w rest Hw IH|w Hw|w arg rest Hw IH] using scan_ind;
      intros e.
    - done.
    - rewrite decodeSequence_plain by done. intros He.
      destruct (decodeSequence rest) as [seq|e'] eqn:Hrest; [done|].
      injection He as ->.
      destruct (IH e eq_refl) as (-> & before & seq & w' & -> & Hbefore & Hw').
      split; [done|].
      exists (w :: before), (mkCommand w 0 :: seq), w'.
      split; [done|]. split; [|done].
      by rewrite decodeSequence_plain, Hbefore.
    - rewrite decodeSequence_arg_missing by done. intros [= <-].
      split; [done|]. by exists [], [], w.
    - rewrite decodeSequence_arg by done. intros He.
      destruct (decodeSequence rest) as [seq|e'] eqn:Hrest; [done|].
      injection He as ->.
      destruct (IH e eq_refl) as (-> & before & seq & w' & -> & Hbefore & Hw').
      split; [done|].
      exists (w :: arg :: before), (mkCommand w arg :: seq), w'.
      split; [done|]. split; [|done].
      by rewrite decodeSequence_arg, Hbefore. }
  split; [split|].
  - intros He. apply (Hfail _ He).
  - intros (before & seq & w & -> & Hbefore & Hw).
    by rewrite (decodeSequence_app _ _ _ Hbefore), decodeSequence_arg_missing.
  - intros He. by destruct (Hfail _ He).
Qed.

Lemma decodeSequence_panics_only_unterminated_witness :
  decodeSequence [OpEnd; OpLevel] = Panicked IndexOutOfRange.
Proof.
  apply (proj2 (proj1 (decodeSequence_panics_only_unterminated
                         [OpEnd; OpLevel]))).
  exists [OpEnd], [mkCommand OpEnd 0], OpLevel.
  split; [reflexivity|]. split; reflexivity.
Defined.

(** ** The reads *)

Section reads.

Implicit Types (r rest bs : list Z) (n count : Z).

Lemma le_uint_cons b bs : le_uint (b :: bs) = LittleEndian_Uint16 b (le_uint bs).
Proof. done. Qed.

Lemma le_uint_bound bs :
  Forall is_uint8 bs → 0 ≤ le_uint bs < 256 ^ len bs.
Proof.
  induction 1 as [|b bs Hb _ IH]; [done|].
  rewrite le_uint_cons, LittleEndian_Uint16_add, len_cons by done.
  rewrite Z.pow_add_r by (pose proof (len_nonneg bs); lia).
  unfold is_uint8 in Hb. lia.
Qed.

Lemma sub_len_le {A} (s : list A) lo n : 0 ≤ n → len (sub s lo (lo + n)) ≤ n.
Proof.
  intros Hn. unfold sub, len. rewrite length_take. lia.
Qed.

Lemma sub_uint8 bs lo hi : Forall is_uint8 bs → Forall is_uint8 (sub bs lo hi).
Proof. intros H. unfold sub. by apply Forall_take, Forall_drop. Qed.

Lemma unsigned_bound bs lo n :
  Forall is_uint8 bs → 0 ≤ n → 0 ≤ header.unsigned bs lo n < 256 ^ n.
Proof.
  intros Hbs Hn. unfold header.unsigned.
  pose proof (le_uint_bound (sub bs lo (lo + n)) (sub_uint8 _ _ _ Hbs)) as Hb.
  pose proof (sub_len_le bs lo n Hn) as Hlen.
  pose proof (len_nonneg (sub bs lo (lo + n))) as Hnn.
  assert (256 ^ len (sub bs lo (lo + n)) ≤ 256 ^ n)
    by (apply Z.pow_le_mono_r; lia).
  lia.
Qed.

Lemma int32_range z : -2147483648 ≤ int32 z < 2147483648.
Proof.
  unfold int32. pose proof (Z.mod_pos_bound z 4294967296 ltac:(done)).
  simpl. case_match; lia.
Qed.

Lemma le16_words w ws : words_of_bytes (le16 w ++ ws) = w :: words_of_bytes ws.
Proof.
  unfold le16. cbn [app words_of_bytes]. f_equal.
  rewrite LittleEndian_Uint16_add
    by (unfold is_uint8; apply Z.mod_pos_bound; done).
  pose proof (Z.div_mod w 256 ltac:(done)). lia.
Qed.

Lemma words_of_le16s ws : words_of_bytes (bytes_of_words ws) = ws.
Proof.
  induction ws as [|w ws IH]; [done|].
  change (bytes_of_words (w :: ws)) with (le16 w ++ bytes_of_words ws).
  by rewrite le16_words, IH.
Qed.

Lemma le16s_length ws : len (bytes_of_words ws) = 2 * len ws.
Proof.
  induction ws as [|w ws IH]; [done|].
  change (bytes_of_words (w :: ws)) with (le16 w ++ bytes_of_words ws).
  unfold len in *. rewrite length_app. simpl length. lia.
Qed.

Lemma le_uint_le16 w : le_uint (le16 w) = w.
Proof.
  unfold le16. rewrite !le_uint_cons. change (le_uint []) with 0.
  assert (H0 : ∀ b, LittleEndian_Uint16 b 0 = b)
    by (intros b; unfold LittleEndian_Uint16; by rewrite Z.shiftl_0_l, Z.lor_0_r).
  rewrite H0, LittleEndian_Uint16_add
    by (unfold is_uint8; apply Z.mod_pos_bound; done).
  pose proof (Z.div_mod w 256 ltac:(done)). lia.
Qed.

Lemma le16_uint8 w : is_uint16 w → Forall is_uint8 (le16 w).
Proof.
  unfold is_uint16, is_uint8, le16. intros Hw.
  repeat constructor.
  - apply Z.mod_pos_bound. done.
  - apply Z.mod_pos_bound. done.
  - apply Z.div_pos; lia.
  - apply Z.div_lt_upper_bound; lia.
Qed.

(** A read that finds its bytes takes them from the front of the source. *)
Lemma binary_Read_app bs rest :
  binary_Read (len bs) (bs ++ rest) = (Some bs, rest).
Proof.
  unfold binary_Read, len. rewrite length_app, Nat2Z.id.
  rewrite (proj2 (Z.leb_le _ _)) by lia.
  by rewrite take_app_length, drop_app_length.
Qed.

End reads.

(** X7.  Whatever the byte source, long enough or not, [readHeader] takes 390
    bytes off it (all of it when it is shorter) and gives a header whose
    fields are values of their Go types: a description of 256 bytes, 16-bit
    counts, an 8-bit XOR key, signed 32-bit options. *)
Theorem readHeader_fields (r : reader) :
  Forall is_uint8 r →
  (readHeader r).2 = drop 390 r ∧
  length (header.Description (readHeader r).1) = 256%nat ∧
  Forall is_uint8 (header.Description (readHeader r).1) ∧
  is_uint32 (header.Version (readHeader r).1) ∧
  is_uint32 (header.DemoTime (readHeader r).1) ∧
  Forall is_uint16
    [header.NumLevels (readHeader r).1;
     header.NumChapterScreens (readHeader r).1;
     header.NumTitles (readHeader r).1; header.NumFmvs (readHeader r).1;
     header.NumCutscenes (readHeader r).1;
     header.NumDemoLevels (readHeader r).1;
     header.GameflowSize (readHeader r).1;
     header.TitleSoundId (readHeader r).1; header.SingleLevel (readHeader r).1;
     header.Flags (readHeader r).1; header.SecretSoundId (readHeader r).1] ∧
  is_uint8 (header.XorKey (readHeader r).1) ∧
  is_uint8 (header.LanguageId (readHeader r).1) ∧
  Forall is_int32
    [header.FirstOption (readHeader r).1; header.TitleReplace (readHeader r).1;
     header.OnDeathDemoMode (readHeader r).1;
     header.OnDeathInGame (readHeader r).1;
     header.OnDemoInterrupt (readHeader r).1;
     header.OnDemoEnd (readHeader r).1].
Proof.
  intros Hr. unfold readHeader, binary_Read.
  destruct (header.size <=? len r) eqn:Hlen; simpl.
  - apply Z.leb_le in Hlen. unfold header.size, len in *.
    change (Z.to_nat 390) with 390%nat.
    assert (Hbuf : Forall is_uint8 (take 390 r)) by (by apply Forall_take).
    split; [done|]. split.
    { unfold sub. rewrite length_take, length_drop, length_take. lia. }
    split; [by apply sub_uint8|].
    split; [apply (unsigned_bound _ 0 4 Hbuf); lia|].
    split; [apply (unsigned_bound _ 278 4 Hbuf); lia|].
    split.
    { repeat constructor; apply (unsigned_bound _ _ 2 Hbuf); lia. }
    split; [apply (unsigned_bound _ 382 1 Hbuf); lia|].
    split; [apply (unsigned_bound _ 383 1 Hbuf); lia|].
    repeat constructor; apply int32_range.
  - apply Z.leb_gt in Hlen. unfold header.size, len in *.
    split; [by rewrite drop_ge by lia|].
    split; [done|].
    split; [apply (Forall_replicate is_uint8 256 0); unfold is_uint8; lia|].
    split; [done|]. split; [done|].
    split; [repeat constructor; unfold is_uint16; lia|].
    split; [unfold is_uint8; lia|]. split; [unfold is_uint8; lia|].
    repeat constructor; unfold is_int32; lia.
Qed.

Lemma readHeader_fields_witness :
  (readHeader jungle_file).2 = drop 390 jungle_file ∧
  is_uint8 (header.XorKey (readHeader jungle_file).1).
Proof.
  assert (Hbytes : Forall is_uint8 jungle_file).
  { apply Forall_forall. intros b Hb.
    assert (Hin : bool_decide (Forall (λ b, bool_decide (is_uint8 b)) jungle_file)).
    { vm_compute. exact I. }
    apply bool_decide_unpack in Hin. rewrite Forall_forall in Hin.
    apply (bool_decide_unpack _ (Hin b Hb)). }
  pose proof (readHeader_fields jungle_file Hbytes) as H.
  split; [apply H | apply H].
Defined.

Lemma bytes_of_words_uint8 ws :
  Forall is_uint16 ws → Forall is_uint8 (bytes_of_words ws).
Proof.
  induction 1 as [|w ws Hw _ IH]; [done|].
  change (bytes_of_words (w :: ws)) with (le16 w ++ bytes_of_words ws).
  apply Forall_app. split; [by apply le16_uint8 | done].
Qed.

Lemma encode_table_uint8 offs payload :
  Forall is_uint16 offs → Forall is_uint8 payload → len payload < 65536 →
  Forall is_uint8 (encode_table offs payload).
Proof.
  intros Hoffs Hpayload Hsize. unfold encode_table.
  apply Forall_app. split; [by apply bytes_of_words_uint8|].
  apply Forall_app. split; [|done].
  apply le16_uint8. pose proof (len_nonneg payload). unfold is_uint16. lia.
Qed.

Lemma readMultiByteArray_layout offs payload rest :
  readMultiByteArray (encode_table offs payload ++ rest) (len offs)
  = (newMultiByteArray offs payload, rest).
Proof.
  unfold readMultiByteArray, encode_table, read_uint16s, read_uint16,
    read_uint8s.
  rewrite <- !app_assoc.
  rewrite <- le16s_length, binary_Read_app, words_of_le16s.
  change 2 with (len (le16 (len payload))) at 1.
  rewrite binary_Read_app, le_uint_le16.
  by rewrite binary_Read_app.
Qed.

(** X8.  [readMultiByteArray] reads the layout of a table: after the offsets
    of a table, the size of its payload and the payload, it returns that
    table and leaves what follows in the source. *)
Theorem readMultiByteArray_encode_table (offs payload rest : list Z) :
  Forall is_uint16 offs → Forall is_uint8 payload → len payload < 65536 →
  Forall is_uint8 (encode_table offs payload) ∧
  readMultiByteArray (encode_table offs payload ++ rest) (len offs)
  = (newMultiByteArray offs payload, rest).
Proof.
  intros Hoffs Hpayload Hsize. split.
  - by apply encode_table_uint8.
  - apply readMultiByteArray_layout.
Qed.

Lemma readMultiByteArray_encode_table_witness :
  readMultiByteArray (encode_table [0; 2] [65; 66; 67] ++ [9; 9]) (len [0; 2])
  = (newMultiByteArray [0; 2] [65; 66; 67], [9; 9]).
Proof.
  apply (readMultiByteArray_encode_table [0; 2] [65; 66; 67] [9; 9]).
  - repeat constructor; unfold is_uint16; lia.
  - repeat constructor; unfold is_uint8; lia.
  - reflexivity.
Defined.

(** ** Tables written and read back *)

Section layout.

Context {A : Type}.
Implicit Types (chunks : list (list A)) (pre c tail : list A).

Lemma len_app pre c : len (pre ++ c) = len pre + len c.
Proof. unfold len. rewrite length_app. lia. Qed.

Lemma sub_middle pre c tail :
  sub (pre ++ c ++ tail) (len pre) (len pre + len c) = c.
Proof.
  unfold sub, len. rewrite Nat2Z.id, drop_app_length.
  replace (Z.to_nat (_ + _ - _)) with (length c) by lia.
  by rewrite take_app_length.
Qed.

Lemma chunk_offsets_length at_ chunks :
  length (chunk_offsets at_ chunks) = length chunks.
Proof.
  revert at_. induction chunks as [|c chunks IH]; intros at_; [done|].
  simpl. by rewrite IH.
Qed.

Lemma chunk_offsets_bound at_ chunks :
  Forall (λ o, at_ ≤ o ≤ at_ + len (concat chunks)) (chunk_offsets at_ chunks).
Proof.
  revert at_. induction chunks as [|c chunks IH]; intros at_; [done|].
  cbn [chunk_offsets concat]. rewrite len_app.
  pose proof (len_nonneg c). pose proof (len_nonneg (concat chunks)).
  constructor; [lia|].
  eapply Forall_impl; [apply IH|]. simpl. intros o. lia.
Qed.

Lemma rising_chunk_offsets lo at_ chunks n :
  lo ≤ at_ → at_ + len (concat chunks) ≤ n →
  rising lo (chunk_offsets at_ chunks) n = true.
Proof.
  revert lo at_. induction chunks as [|c chunks IH]; intros lo at_ Hlo Hn.
  - simpl in *. apply Z.leb_le. change (len (@nil A)) with 0 in Hn. lia.
  - cbn [chunk_offsets rising concat] in *. rewrite len_app in Hn.
    pose proof (len_nonneg c).
    rewrite (proj2 (Z.leb_le _ _) Hlo). apply IH; lia.
Qed.

Lemma records_chunk_offsets pre chunks :
  records (chunk_offsets (len pre) chunks) (pre ++ concat chunks) = chunks.
Proof.
  revert pre. induction chunks as [|c chunks IH]; intros pre; [done|].
  cbn [chunk_offsets records concat]. f_equal.
  - destruct chunks as [|c' chunks]; cbn [chunk_offsets concat].
    + rewrite app_nil_r, sub_to_end. unfold len.
      by rewrite Nat2Z.id, drop_app_length.
    + apply sub_middle.
  - specialize (IH (pre ++ c)). by rewrite len_app, <- app_assoc in IH.
Qed.

End layout.

Lemma records_chunk_offsets_0 {A} (chunks : list (list A)) :
  records (chunk_offsets 0 chunks) (concat chunks) = chunks.
Proof. apply (records_chunk_offsets [] chunks). Qed.

Lemma string_of_bytes_of_string s : string_of_bytes (bytes_of_string s) = s.
Proof.
  induction s as [|a s IH]; [done|].
  change (string_of_bytes (bytes_of_string (String a s)))
    with (String (byte_to_ascii (Z.of_N (N_of_ascii a)))
                 (string_of_bytes (bytes_of_string s))).
  unfold byte_to_ascii. by rewrite N2Z.id, ascii_N_embedding, IH.
Qed.

Lemma bytes_of_string_uint8 s : Forall is_uint8 (bytes_of_string s).
Proof.
  unfold bytes_of_string. apply Forall_fmap, Forall_forall. intros a _.
  simpl. pose proof (N_ascii_bounded a). unfold is_uint8. lia.
Qed.

Lemma bytes_of_strings_uint8 strs :
  Forall is_uint8 (concat (bytes_of_string <$> strs)).
Proof.
  induction strs as [|s strs IH]; [done|].
  simpl. apply Forall_app. split; [apply bytes_of_string_uint8 | done].
Qed.

Lemma xor_bytes_uint8 k d :
  is_uint8 k → Forall is_uint8 d → Forall is_uint8 (xor_bytes k d).
Proof.
  intros Hk Hd. unfold xor_bytes. destruct (0 <? k); [|done].
  apply Forall_fmap. eapply Forall_impl; [done|].
  simpl. intros b Hb. by apply lxor_uint8.
Qed.

Lemma records_xor_bytes k offs d :
  records offs (xor_bytes k d) = xor_bytes k <$> records offs d.
Proof.
  unfold xor_bytes. destruct (0 <? k).
  - apply records_fmap.
  - by rewrite list_fmap_id.
Qed.

Lemma xor_bytes_twice_fmap k (rs : list (list Z)) :
  xor_bytes k <$> (xor_bytes k <$> rs) = rs.
Proof.
  rewrite <- list_fmap_compose. rewrite <- (list_fmap_id rs) at 2.
  apply list_fmap_ext. intros _ d _. apply xor_bytes_involutive.
Qed.

Lemma uint16_offsets {B} (chunks : list (list B)) n :
  len (concat chunks) < n →
  Forall (λ o, 0 ≤ o < n) (chunk_offsets 0 chunks).
Proof.
  intros Hn. eapply Forall_impl; [apply chunk_offsets_bound|].
  simpl. intros o. lia.
Qed.

(** What [readStringArray] makes of a table of strings in the source. *)
Lemma readStringArray_layout k strs rest :
  readStringArray (encode_strings k strs ++ rest) (len strs) k
  = Returned (strs, rest).
Proof.
  unfold readStringArray, encode_strings.
  set (chunks := bytes_of_string <$> strs).
  assert (Hcount : len strs = len (chunk_offsets 0 chunks)).
  { unfold len, chunks. by rewrite chunk_offsets_length, length_fmap. }
  rewrite Hcount, readMultiByteArray_layout.
  rewrite Strings_valid.
  - cbn [offsets data mbind outcome_bind].
    rewrite records_xor_bytes, xor_bytes_twice_fmap.
    rewrite records_chunk_offsets_0.
    unfold chunks. rewrite <- list_fmap_compose.
    rewrite <- (list_fmap_id strs) at 2. do 2 f_equal.
    apply list_fmap_ext. intros _ s _. apply string_of_bytes_of_string.
  - unfold valid. cbn [offsets data]. apply rising_chunk_offsets; [done|].
    unfold len. rewrite xor_bytes_length. lia.
Qed.

Lemma half_double (offs : list Z) : half <$> (Z.mul 2 <$> offs) = offs.
Proof.
  rewrite <- list_fmap_compose. rewrite <- (list_fmap_id offs) at 2.
  apply list_fmap_ext. intros _ o _. unfold half. simpl.
  by rewrite Z.mul_comm, Z.div_mul.
Qed.

Lemma decodeSequences_words seqs :
  Forall (Forall plain_command) seqs →
  decodeSequences (words_of_sequence <$> seqs) = Returned seqs.
Proof.
  induction 1 as [|seq seqs Hseq _ IH]; [done|].
  cbn [fmap list_fmap decodeSequences].
  change (list_fmap _ _ words_of_sequence seqs)
    with (words_of_sequence <$> seqs).
  by rewrite decodeSequence_from_words, IH.
Qed.

Lemma decodeSequences_Returned_words chunks seqs :
  decodeSequences chunks = Returned seqs →
  words_of_sequence <$> seqs = chunks ∧ Forall (Forall plain_command) seqs.
Proof.
  revert seqs. induction chunks as [|chunk chunks IH]; intros seqs.
  - by intros [= <-].
  - cbn [decodeSequences]. intros H.
    bind_inv H as seq Hseq. bind_inv H as seqs' Hseqs. injection H as <-.
    destruct (decodeSequence_Returned_words _ _ Hseq) as [<- Hplain].
    destruct (IH _ Hseqs) as [<- Hplains]. split; [done|]. by constructor.
Qed.

(** What [readSequenceArray] makes of a table of sequences in the source. *)
Lemma readSequenceArray_layout seqs rest :
  Forall (Forall plain_command) seqs →
  readSequenceArray (encode_sequences seqs ++ rest) (len seqs)
  = Returned (seqs, rest).
Proof.
  intros Hplain. unfold readSequenceArray, encode_sequences.
  set (chunks := words_of_sequence <$> seqs).
  assert (Hcount : len seqs = len (Z.mul 2 <$> chunk_offsets 0 chunks)).
  { unfold len, chunks.
    by rewrite length_fmap, chunk_offsets_length, length_fmap. }
  rewrite Hcount, readMultiByteArray_layout.
  unfold U16. cbn [offsets data]. rewrite words_of_le16s.
  rewrite (U16_from_rising _ _ 0).
  - cbn [mbind outcome_bind]. rewrite half_double.
    rewrite records_chunk_offsets_0.
    unfold chunks. by rewrite decodeSequences_words.
  - done.
  - rewrite half_double. apply rising_chunk_offsets; [done|]. lia.
Qed.

(** X9.  [readStringArray] and [readGameStrings] read back a table of
    strings: after the offsets of the strings laid one after the other, the
    size and their bytes transformed with the XOR key, they return the
    strings and leave what follows in the source; [readGameStrings] takes the
    number of strings from the source first. *)
Theorem readStringArray_encode_strings (k : Z) (strs : list string)
    (rest : list Z) :
  is_uint8 k → len (concat (bytes_of_string <$> strs)) < 65536 →
  Forall is_uint8 (encode_strings k strs) ∧
  readStringArray (encode_strings k strs ++ rest) (len strs) k
  = Returned (strs, rest) ∧
  readGameStrings (le16 (len strs) ++ encode_strings k strs ++ rest) k
  = Returned (strs, rest).
Proof.
  intros Hk Hsize.
  split; [|split].
  - unfold encode_strings. apply encode_table_uint8.
    + eapply Forall_impl; [apply (uint16_offsets _ 65536); lia|]. done.
    + apply xor_bytes_uint8; [done | apply bytes_of_strings_uint8].
    + unfold len in *. by rewrite xor_bytes_length.
  - apply readStringArray_layout.
  - unfold readGameStrings, read_uint16.
    change 2 with (len (le16 (len strs))).
    rewrite binary_Read_app, le_uint_le16. apply readStringArray_layout.
Qed.

Lemma readStringArray_encode_strings_witness :
  readStringArray (encode_strings 166 ["Jungle"; "Temple"]%string ++ [1; 2])
                  (len ["Jungle"; "Temple"]%string) 166
  = Returned (["Jungle"; "Temple"]%string, [1; 2]).
Proof.
  apply (readStringArray_encode_strings 166 ["Jungle"; "Temple"]%string [1; 2]).
  - unfold is_uint8. lia.
  - reflexivity.
Defined.

Lemma words_of_sequences_uint16 (seqs : list Sequence) :
  Forall (Forall (λ c, is_uint16 (Op c) ∧ is_uint16 (Arg c))) seqs →
  Forall is_uint16 (concat (words_of_sequence <$> seqs)).
Proof.
  induction 1 as [|seq seqs Hseq _ IH]; [done|].
  cbn [fmap list_fmap concat]. apply Forall_app. split; [|exact IH].
  clear IH. induction Hseq as [|c seq [Hop Harg] _ IH]; [done|].
  change (words_of_sequence (c :: seq))
    with (words_of_command c ++ words_of_sequence seq).
  apply Forall_app. split; [|exact IH].
  unfold words_of_command.
  destruct (hasArg (Op c)); [apply Forall_cons; split; [done|]|];
    apply Forall_cons; split; done.
Qed.

(** X10.  [readSequenceArray] reads back a table of sequences: after the byte
    offsets of the sequences' words laid one after the other, the size and
    the words, it returns the sequences and leaves what follows in the
    source.  What it returns from any source is made of instructions whose
    argument is 0 when their opcode has none. *)
Theorem readSequenceArray_encode_sequences (seqs : list Sequence)
    (rest : list Z) :
  Forall (Forall plain_command) seqs →
  Forall (Forall (λ c, is_uint16 (Op c) ∧ is_uint16 (Arg c))) seqs →
  2 * len (concat (words_of_sequence <$> seqs)) < 65536 →
  Forall is_uint8 (encode_sequences seqs) ∧
  readSequenceArray (encode_sequences seqs ++ rest) (len seqs)
  = Returned (seqs, rest) ∧
  ∀ r count seqs' r',
    readSequenceArray r count = Returned (seqs', r') →
    Forall (Forall plain_command) seqs'.
Proof.
  intros Hplain Hwords Hsize. split; [|split].
  - unfold encode_sequences. apply encode_table_uint8.
    + apply Forall_fmap. eapply Forall_impl; [apply chunk_offsets_bound|].
      simpl. unfold is_uint16. intros o. lia.
    + by apply bytes_of_words_uint8, words_of_sequences_uint16.
    + by rewrite le16s_length.
  - by apply readSequenceArray_layout.
  - intros r count seqs' r'. unfold readSequenceArray.
    destruct (readMultiByteArray r count) as [m r1]. intros H.
    bind_inv H as chunks Hchunks. bind_inv H as seqs1 Hseqs.
    injection H as <- _.
    apply (decodeSequences_Returned_words _ _ Hseqs).
Qed.

Lemma readSequenceArray_encode_sequences_witness :
  readSequenceArray
    (encode_sequences [[mkCommand OpEnd 0];
                       [mkCommand OpTrack 34; mkCommand OpLevel 1;
                        mkCommand OpEnd 0]] ++ [7])
    (len [[mkCommand OpEnd 0];
          [mkCommand OpTrack 34; mkCommand OpLevel 1; mkCommand OpEnd 0]])
  = Returned ([[mkCommand OpEnd 0];
               [mkCommand OpTrack 34; mkCommand OpLevel 1; mkCommand OpEnd 0]],
              [7]).
Proof.
  apply (readSequenceArray_encode_sequences
           [[mkCommand OpEnd 0];
            [mkCommand OpTrack 34; mkCommand OpLevel 1; mkCommand OpEnd 0]]
           [7]).
  - repeat constructor; unfold plain_command; simpl; discriminate.
  - repeat constructor; unfold is_uint16; simpl; unfold OpEnd, OpTrack, OpLevel; lia.
  - reflexivity.
Defined.

(** ** The earlier readers and the current ones *)

Lemma strings_from_Strings_from off d :
  earlier.strings_from off d = fst <$> Strings_from 0 off d.
Proof.
  induction off as [|o rest IH]; [done|].
  cbn [earlier.strings_from Strings_from]. change (0 <? 0) with false.
  cbv iota.
  destruct rest as [|to rest].
  - destruct (slice d o (len d)) as [bytes|e]; done.
  - destruct (slice d o to) as [bytes|e]; [|done].
    cbn [mbind outcome_bind]. rewrite IH.
    by destruct (Strings_from 0 (to :: rest) d) as [[strs md]|e].
Qed.

Lemma strings_from_rising off d :
  rising 0 off (len d) = true →
  earlier.strings_from off d = Returned (string_of_bytes <$> records off d).
Proof.
  intros Hr. rewrite strings_from_Strings_from.
  rewrite (Strings_from_rising 0 off d 0) by done.
  cbn [fmap outcome_fmap fst]. do 2 f_equal.
  rewrite <- (list_fmap_id (records off d)) at 2.
  apply list_fmap_ext. intros _ bs _. apply xor_bytes_zero.
Qed.

Lemma strings_from_not_rising off d :
  rising 0 off (len d) = false →
  earlier.strings_from off d = Panicked SliceBoundsOutOfRange.
Proof.
  intros Hr. rewrite strings_from_Strings_from.
  by rewrite Strings_from_not_rising.
Qed.

Lemma len_xor_bytes k d : len (xor_bytes k d) = len d.
Proof. unfold len. by rewrite xor_bytes_length. Qed.

(** X11.  The earlier [readStringArray], which transforms the whole payload
    and then cuts the strings, and the current one, which goes through
    [multiByteArray] and transforms each string where it lies, do the same on
    every source: the same strings and the same bytes left, or the same
    panic. *)
Theorem earlier_readStringArray_agrees (r : reader) (count xor : Z) :
  earlier.readStringArray r count xor = readStringArray r count xor.
Proof.
  unfold earlier.readStringArray, readStringArray, readMultiByteArray,
    earlier.readOffsetsAndSize.
  destruct (read_uint16s count r) as [off r1].
  destruct (read_uint16 0 r1) as [sz r2].
  destruct (read_uint8s sz r2) as [d r3].
  change (if 0 <? xor then (λ b, Z.lxor b xor) <$> d else d)
    with (xor_bytes xor d).
  destruct (rising 0 off (len d)) eqn:Hr.
  - rewrite strings_from_rising by (by rewrite len_xor_bytes).
    rewrite Strings_valid by done.
    cbn [offsets data mbind outcome_bind]. by rewrite records_xor_bytes.
  - rewrite strings_from_not_rising by (by rewrite len_xor_bytes).
    rewrite Strings_invalid; [done|].
    unfold valid. cbn [offsets data]. by rewrite Hr.
Qed.

Lemma words_of_zeros (n : nat) :
  words_of_bytes (replicate (2 * n) 0) = replicate n 0.
Proof.
  induction n as [|n IH]; [done|].
  replace (2 * S n)%nat with (S (S (2 * n))) by lia.
  cbn [replicate words_of_bytes]. by rewrite IH.
Qed.

Lemma words_of_bytes_take_odd (q : nat) (bs : list Z) :
  words_of_bytes (take (2 * q + 1) bs) = words_of_bytes (take (2 * q) bs).
Proof.
  revert bs. induction q as [|q IH]; intros bs.
  - by destruct bs.
  - replace (2 * S q + 1)%nat with (S (S (2 * q + 1))) by lia.
    replace (2 * S q)%nat with (S (S (2 * q))) by lia.
    destruct bs as [|b0 [|b1 bs]]; [done..|].
    cbn [take words_of_bytes]. by rewrite IH.
Qed.

(** The words of an even number of bytes, read as words or as bytes. *)
Lemma read_uint16s_read_uint8s size r :
  Z.even size = true →
  read_uint16s (size / 2) r
  = (words_of_bytes (read_uint8s size r).1, (read_uint8s size r).2).
Proof.
  intros Heven. apply Zeven_bool_iff, Zeven_div2 in Heven.
  rewrite <- Z.div2_div in *.
  unfold read_uint16s, read_uint8s. rewrite <- Heven.
  unfold binary_Read. destruct (size <=? len r); [done|].
  cbn [fst snd]. f_equal.
  replace (Z.to_nat size) with (2 * Z.to_nat (Z.div2 size))%nat by lia.
  by rewrite words_of_zeros.
Qed.

(** The words of an odd number of bytes that the source has. *)
Lemma read_uint16s_read_uint8s_odd size r :
  Z.even size = false → 0 ≤ size ≤ len r →
  (read_uint16s (size / 2) r).1 = words_of_bytes (read_uint8s size r).1 ∧
  (read_uint16s (size / 2) r).2 = drop (Z.to_nat (size - 1)) r ∧
  (read_uint8s size r).2 = drop (Z.to_nat size) r.
Proof.
  intros Hodd Hsize.
  assert (Hq : size = 2 * (size / 2) + 1).
  { rewrite <- Z.negb_odd in Hodd. apply negb_false_iff in Hodd.
    apply Zodd_bool_iff, Zodd_div2 in Hodd. by rewrite <- Z.div2_div. }
  unfold read_uint16s, read_uint8s, binary_Read.
  rewrite !(proj2 (Z.leb_le _ _)) by lia. cbn [fst snd].
  split; [|split; [f_equal; lia | done]].
  replace (Z.to_nat size) with (2 * Z.to_nat (size / 2) + 1)%nat by lia.
  replace (Z.to_nat (2 * (size / 2))) with (2 * Z.to_nat (size / 2))%nat by lia.
  by rewrite words_of_bytes_take_odd.
Qed.

(** X12.  The earlier [readSequenceArray] read the payload as [size/2] words,
    the current one reads [size] bytes and pairs them.  When the size read
    from the source is even they do the same on every source.  When it is odd
    and the source has that many bytes they decode the same sequences, and
    the current reader takes one byte more off the source. *)
Theorem earlier_readSequenceArray_agrees (r : reader) (count : Z) :
  let size := (earlier.readOffsetsAndSize r count).1.2 in
  let payload := (earlier.readOffsetsAndSize r count).2 in
  (Z.even size = true →
   earlier.readSequenceArray r count = readSequenceArray r count) ∧
  (Z.even size = false → 0 ≤ size ≤ len payload →
   fst <$> earlier.readSequenceArray r count
   = fst <$> readSequenceArray r count ∧
   ∀ seqs r', readSequenceArray r count = Returned (seqs, r') →
     r' = drop (Z.to_nat size) payload ∧
     earlier.readSequenceArray r count
     = Returned (seqs, drop (Z.to_nat (size - 1)) payload)).
Proof.
  unfold earlier.readSequenceArray, readSequenceArray, readMultiByteArray,
    earlier.readOffsetsAndSize, U16.
  destruct (read_uint16s count r) as [off r1].
  destruct (read_uint16 0 r1) as [size r2]. cbn [fst snd]. split.
  - intros Heven. rewrite (read_uint16s_read_uint8s _ _ Heven).
    by destruct (read_uint8s size r2) as [d r3].
  - intros Hodd Hsize.
    destruct (read_uint16s_read_uint8s_odd _ _ Hodd Hsize) as (Hw & Hr16 & Hr8).
    destruct (read_uint16s (size / 2) r2) as [ws r3].
    destruct (read_uint8s size r2) as [d r3']. cbn [fst snd] in *.
    subst ws r3 r3'. cbn [offsets data].
    destruct (U16_from off (words_of_bytes d)) as [chunks|e]; [|done].
    cbn [mbind outcome_bind].
    destruct (decodeSequences chunks) as [seqs|e]; [|done].
    cbn [mbind outcome_bind]. split; [done|].
    by intros seqs' r' [= <- <-].
Qed.

Lemma earlier_readSequenceArray_agrees_witness :
  earlier.readSequenceArray
    (le16 0 ++ le16 4 ++ le16 OpTrack ++ le16 34 ++ [8]) 1
  = readSequenceArray
      (le16 0 ++ le16 4 ++ le16 OpTrack ++ le16 34 ++ [8]) 1 ∧
  fst <$> earlier.readSequenceArray
            (le16 0 ++ le16 5 ++ le16 OpTrack ++ le16 34 ++ [8]) 1
  = fst <$> readSequenceArray
              (le16 0 ++ le16 5 ++ le16 OpTrack ++ le16 34 ++ [8]) 1.
Proof.
  split.
  - apply (proj1 (earlier_readSequenceArray_agrees
                    (le16 0 ++ le16 4 ++ le16 OpTrack ++ le16 34 ++ [8]) 1)).
    reflexivity.
  - apply (proj2 (earlier_readSequenceArray_agrees
                    (le16 0 ++ le16 5 ++ le16 OpTrack ++ le16 34 ++ [8]) 1)).
    + reflexivity.
    + vm_compute. split; intros H; discriminate H.
Defined.

(** ** The levels *)

Section frames.

Context {B : Type} (f : Level → B).

Lemma markDemo_frame levels demo :
  (∀ l, f (setDemo l) = f l) → f <$> markDemo levels demo = f <$> levels.
Proof.
  intros Hf. unfold markDemo. case_match; [|done].
  rewrite (list_fmap_alter f setDemo id).
  - apply list_eq. intros i. rewrite list_lookup_alter.
    case_decide; [subst|done]. by destruct (_ !! _).
  - apply Forall_forall. intros l _. apply Hf.
Qed.

Lemma foldl_markDemo_frame demos levels :
  (∀ l, f (setDemo l) = f l) →
  f <$> foldl markDemo levels demos = f <$> levels.
Proof.
  intros Hf. revert levels.
  induction demos as [|d demos IH]; intros levels; simpl; [done|].
  by rewrite IH, markDemo_frame.
Qed.

Lemma scatter_frame n set levels puzzles levels' :
  (∀ v l, f (set v l) = f l) →
  scatter n set levels puzzles = Returned levels' →
  f <$> levels' = f <$> levels.
Proof.
  intros Hset. revert levels puzzles levels'.
  induction n as [|n IH]; intros levels puzzles levels'; simpl.
  - by intros [= <-].
  - destruct levels as [|l levels]; [done|].
    destruct puzzles as [|v puzzles]; [done|].
    intros H. bind_inv H as levels1 Hrest. injection H as <-.
    rewrite !fmap_cons, Hset. f_equal. by eapply IH.
Qed.

Lemma readSlots_frame k set i head levels r levels' r' :
  (∀ i v l, f (set i v l) = f l) →
  readSlots k set i head levels r = Returned (levels', r') →
  f <$> levels' = f <$> levels.
Proof.
  intros Hset. revert i levels r.
  induction k as [|k IH]; intros i levels r; simpl.
  - by intros [= <- _].
  - intros H. bind_inv H as [puzzles r1] Hread.
    bind_inv H as levels1 Hscatter.
    apply scatter_frame in Hscatter; [|apply Hset].
    apply IH in H. by rewrite H, Hscatter.
Qed.

End frames.

(** What the second loop of [joinLevels] leaves alone. *)
Lemma joinLevels_frame {B} (f : Level → B) names paths chaps flow demos :
  (∀ l, f (setDemo l) = f l) →
  f <$> joinLevels names paths chaps flow demos
  = f <$> joinLevels_from names paths chaps (tail flow).
Proof. intros Hf. unfold joinLevels. by apply foldl_markDemo_frame. Qed.

(** X13.  [joinLevels] makes one level for each name, in the order of the
    names, whatever the other tables hold: level [i] has name [i], path [i]
    and chapter screen [i] where the table of paths or of chapter screens has
    an entry [i] and the empty string where it has none, and its puzzle,
    pickup and key slots are empty. *)
Theorem joinLevels_positional (names paths chaps : list string)
    (flow : list Sequence) (demos : list Z) (i : nat) (l : Level) :
  joinLevels names paths chaps flow demos !! i = Some l →
  names !! i = Some (Name l) ∧
  Path l = default ""%string (paths !! i) ∧
  Chapter l = default ""%string (chaps !! i) ∧
  Puzzles l = replicate 4 ""%string ∧
  Pickups l = replicate 2 ""%string ∧
  Keys l = replicate 4 ""%string ∧
  length (joinLevels names paths chaps flow demos) = length names.
Proof.
  intros Hl.
  pose (f := λ l : Level,
          (Name l, Path l, Chapter l, Puzzles l, Pickups l, Keys l)).
  assert (Hf : (f <$> joinLevels names paths chaps flow demos) !! i
               = Some (f l)) by (by rewrite list_lookup_fmap, Hl).
  rewrite (joinLevels_frame f) in Hf by done.
  rewrite list_lookup_fmap, joinLevels_from_lookup in Hf.
  destruct (names !! i) as [name|] eqn:Hname; [|done].
  simpl in Hf. injection Hf as <- <- <- <- <- <-.
  repeat (split; [done|]). apply joinLevels_length.
Qed.

Lemma joinLevels_positional_witness :
  Path (mkLevel "b" "" "q" [] true (replicate 4 ""%string)
                (replicate 2 ""%string) (replicate 4 ""%string))
  = default ""%string (["p"%string] !! 1%nat).
Proof.
  apply (joinLevels_positional ["a"; "b"]%string ["p"%string]
           ["c"; "q"]%string [] [1] 1
           (mkLevel "b" "" "q" [] true (replicate 4 ""%string)
                    (replicate 2 ""%string) (replicate 4 ""%string))).
  reflexivity.
Defined.

Section slots.

Variable set : nat → string → Level → Level.
Variable get : Level → list string.
Hypothesis get_set : ∀ i v l, get (set i v l) = <[i:=v]> (get l).

Lemma scatter_zip n (put : string → Level → Level) levels puzzles :
  length levels = n → length puzzles = n →
  scatter n put levels puzzles = Returned (zip_with put puzzles levels).
Proof.
  revert levels puzzles.
  induction n as [|n IH]; intros [|l levels] [|v puzzles]; try done.
  simpl. intros [= Hl] [= Hp]. by rewrite IH.
Qed.

(** The loop over the slots, for an assignment [set] to the slots of the
    array [get]. *)
Lemma readSlots_slots k i head levels r levels' r' :
  length levels = Z.to_nat (header.NumLevels head) →
  readSlots k set i head levels r = Returned (levels', r') →
  ∃ tables,
    readTables k head r = Returned (tables, r') ∧
    length levels' = length levels ∧
    ∀ (j : nat) l l',
      levels !! j = Some l → levels' !! j = Some l' →
      length (get l') = length (get l) ∧
      ∀ m : nat, (m < length (get l))%nat →
        get l' !! m
        = if bool_decide (i ≤ m < i + k)%nat
          then tables !! (m - i)%nat ≫= (.!! j)
          else get l !! m.
Proof.
  revert i levels r. induction k as [|k IH]; intros i levels r Hlen.
  - simpl. intros [= <- <-]. exists []. split; [done|]. split; [done|].
    intros j l l' Hl [= <-]%(eq_trans (eq_sym Hl)). split; [done|].
    intros m Hm. rewrite bool_decide_eq_false_2 by lia. done.
  - cbn [readSlots readTables]. intros H.
    bind_inv H as [puzzles r1] Hread.
    bind_inv H as levels1 Hscatter.
    pose proof (readStringArray_length _ _ _ _ _ Hread) as Hpuzzles.
    rewrite scatter_zip in Hscatter by done. injection Hscatter as <-.
    assert (Hlen1 : length (zip_with (set i) puzzles levels)
                    = Z.to_nat (header.NumLevels head))
      by (rewrite length_zip_with; lia).
    destruct (IH _ _ _ Hlen1 H) as (tables & Htables & Hlen' & Hslots).
    exists (puzzles :: tables). rewrite Hread. cbn [mbind outcome_bind].
    rewrite Htables. split; [done|]. split; [lia|].
    intros j l l' Hl Hl'.
    assert (Hv : ∃ v, puzzles !! j = Some v).
    { apply lookup_lt_is_Some. apply lookup_lt_Some in Hl. lia. }
    destruct Hv as [v Hv].
    assert (Hl1 : zip_with (set i) puzzles levels !! j = Some (set i v l))
      by (by rewrite lookup_zip_with, Hv, Hl).
    destruct (Hslots _ _ _ Hl1 Hl') as [Hlenget Hget].
    rewrite get_set, length_insert in Hlenget. split; [done|].
    intros m Hm. rewrite Hget by (by rewrite get_set, length_insert).
    rewrite get_set. destruct (decide (m = i)) as [->|Hmi].
    + rewrite bool_decide_eq_false_2, bool_decide_eq_true_2 by lia.
      rewrite list_lookup_insert_eq by done.
      by rewrite Nat.sub_diag.
    + rewrite list_lookup_insert_ne by done.
      destruct (decide (i ≤ m < i + S k)%nat) as [Hin|Hout].
      * rewrite !bool_decide_eq_true_2 by lia.
        by replace (m - i)%nat with (S (m - S i)) by lia.
      * rewrite !bool_decide_eq_false_2 by lia. done.
Qed.

End slots.

(** The levels after one of the loops, level by level. *)
Lemma readSlots_frame_lookup {B} (f : Level → B) k set i head levels r
    levels' r' (j : nat) l l' :
  (∀ i v l, f (set i v l) = f l) →
  readSlots k set i head levels r = Returned (levels', r') →
  levels !! j = Some l → levels' !! j = Some l' → f l' = f l.
Proof.
  intros Hset Hread Hl Hl'.
  pose proof (readSlots_frame f _ _ _ _ _ _ _ _ Hset Hread) as Hf.
  apply (f_equal (.!! j)) in Hf.
  rewrite !list_lookup_fmap, Hl, Hl' in Hf. by injection Hf.
Qed.

(** X14.  Each of the three loops at the end of [Read], over [Puzzles] with
    [setPuzzle], over [Pickups] with [setPickup] and over [Keys] with
    [setKey], started on as many levels as the header's [NumLevels], takes
    one table of [NumLevels] strings per slot from the source and puts string
    [j] of the table for slot [m] into slot [m] of that array of level [j];
    the other slots of the array, the two other arrays, the other fields of
    the level and the number of levels stay as they are. *)
Theorem readSlots_tables (set : nat → string → Level → Level)
    (get : Level → list string) (k i : nat) (head : header.t)
    (levels levels' : list Level) (r r' : reader) :
  set = setPuzzle ∧ get = Puzzles ∨ set = setPickup ∧ get = Pickups ∨
  set = setKey ∧ get = Keys →
  length levels = Z.to_nat (header.NumLevels head) →
  readSlots k set i head levels r = Returned (levels', r') →
  ∃ tables,
    readTables k head r = Returned (tables, r') ∧
    length levels' = length levels ∧
    ∀ (j : nat) l l',
      levels !! j = Some l → levels' !! j = Some l' →
      length (get l') = length (get l) ∧
      (∀ m : nat, (m < length (get l))%nat →
         get l' !! m
         = if bool_decide (i ≤ m < i + k)%nat
           then tables !! (m - i)%nat ≫= (.!! j)
           else get l !! m) ∧
      (∀ other, other ∈ [Puzzles; Pickups; Keys] → other ≠ get →
                other l' = other l) ∧
      (Name l', Path l', Chapter l', Flow l', IsDemo l')
      = (Name l, Path l, Chapter l, Flow l, IsDemo l).
Proof.
  intros Hloop Hlen Hread.
  assert (Hget : ∀ i v l, get (set i v l) = <[i:=v]> (get l))
    by (by destruct Hloop as [[-> ->]|[[-> ->]|[-> ->]]]).
  destruct (readSlots_slots set get Hget _ _ _ _ _ _ _ Hlen Hread)
    as (tables & Htables & Hlen' & Hslots).
  exists tables. split; [done|]. split; [done|].
  intros j l l' Hl Hl'. destruct (Hslots j l l' Hl Hl') as [Hlenget Hfill].
  split; [done|]. split; [done|]. split.
  - intros other Hother Hne.
    assert (Hframe : ∀ i v l, other (set i v l) = other l).
    { rewrite !elem_of_cons in Hother.
      destruct Hother as [->|[->|[->|Hnil]]];
        [..|by apply elem_of_nil in Hnil];
        destruct Hloop as [[-> ->]|[[-> ->]|[-> ->]]]; done. }
    apply (readSlots_frame_lookup other _ _ _ _ _ _ _ _ _ _ _
             Hframe Hread Hl Hl').
  - assert (Hframe : ∀ i v l,
              (λ l, (Name l, Path l, Chapter l, Flow l, IsDemo l)) (set i v l)
              = (λ l, (Name l, Path l, Chapter l, Flow l, IsDemo l)) l)
      by (by destruct Hloop as [[-> ->]|[[-> ->]|[-> ->]]]).
    apply (readSlots_frame_lookup _ _ _ _ _ _ _ _ _ _ _ _
             Hframe Hread Hl Hl').
Qed.

Lemma readSlots_tables_witness :
  (∃ tables,
     readTables 2 (header.mk 0 [] 0 0 0 0 0 0 0 0 1 0 0 0 0 0 0 0 0 0 0 0)
                (table_of ["P1"%string] ++ table_of ["P2"%string])
     = Returned (tables, []) ∧
     tables = [["P1"%string]; ["P2"%string]]) ∧
  (∃ tables,
     readTables 1 (header.mk 0 [] 0 0 0 0 0 0 0 0 1 0 0 0 0 0 0 0 0 0 0 0)
                (table_of ["U2"%string])
     = Returned (tables, []) ∧
     tables = [["U2"%string]]) ∧
  (∃ tables,
     readTables 1 (header.mk 0 [] 0 0 0 0 0 0 0 0 1 0 0 0 0 0 0 0 0 0 0 0)
                (table_of ["K4"%string])
     = Returned (tables, []) ∧
     tables = [["K4"%string]]).
Proof.
  split; [|split].
  - destruct (readSlots_tables setPuzzle Puzzles 2 0
                (header.mk 0 [] 0 0 0 0 0 0 0 0 1 0 0 0 0 0 0 0 0 0 0 0)
                [Level_zero]
                [mkLevel "" "" "" [] false ["P1"; "P2"; ""; ""]%string
                         (replicate 2 ""%string) (replicate 4 ""%string)]
                (table_of ["P1"%string] ++ table_of ["P2"%string]) []
                (or_introl (conj eq_refl eq_refl)) eq_refl eq_refl)
      as (tables & Htables & _).
    exists tables. split; [exact Htables|].
    vm_compute in Htables. by injection Htables as <-.
  - destruct (readSlots_tables setPickup Pickups 1 1
                (header.mk 0 [] 0 0 0 0 0 0 0 0 1 0 0 0 0 0 0 0 0 0 0 0)
                [Level_zero]
                [mkLevel "" "" "" [] false (replicate 4 ""%string)
                         [""; "U2"]%string (replicate 4 ""%string)]
                (table_of ["U2"%string]) []
                (or_intror (or_introl (conj eq_refl eq_refl))) eq_refl eq_refl)
      as (tables & Htables & _).
    exists tables. split; [exact Htables|].
    vm_compute in Htables. by injection Htables as <-.
  - destruct (readSlots_tables setKey Keys 1 3
                (header.mk 0 [] 0 0 0 0 0 0 0 0 1 0 0 0 0 0 0 0 0 0 0 0)
                [Level_zero]
                [mkLevel "" "" "" [] false (replicate 4 ""%string)
                         (replicate 2 ""%string) [""; ""; ""; "K4"]%string]
                (table_of ["K4"%string]) []
                (or_intror (or_intror (conj eq_refl eq_refl))) eq_refl eq_refl)
      as (tables & Htables & _).
    exists tables. split; [exact Htables|].
    vm_compute in Htables. by injection Htables as <-.
Defined.

(** ** The script [Read] returns *)

Lemma joinLevels_Name names paths chaps flow demos :
  Name <$> joinLevels names paths chaps flow demos = names.
Proof.
  rewrite (joinLevels_frame Name) by done.
  apply list_eq. intros i.
  rewrite list_lookup_fmap, joinLevels_from_lookup.
  by destruct (names !! i).
Qed.

Lemma joinLevels_slot_lengths names paths chaps flow demos :
  (λ l, (length (Puzzles l), length (Pickups l), length (Keys l)))
    <$> joinLevels names paths chaps flow demos
  = replicate (length names) (4, 2, 4)%nat.
Proof.
  rewrite (joinLevels_frame _) by done.
  generalize (tail flow). clear flow. intros flow. revert paths chaps flow.
  induction names as [|name names IH]; intros paths chaps flow; [done|].
  simpl. f_equal. apply IH.
Qed.

(** X15.  The script [Read] returns has one level for each level name read,
    named in that order, each with 4 puzzle, 2 pickup and 4 key slots; its
    tables of titles, FMVs and cutscenes have the numbers of entries the
    header gives and the extra strings are 41; its version and description
    are the header's, the description all 256 bytes of it; and its language
    is 0 whatever the header's language is. *)
Theorem Read_script_shape (r : reader) (d : decoded) :
  Read_decoded r = Returned d →
  let head := (readHeader r).1 in
  Name <$> Levels (script d) = levelNames d ∧
  length (Levels (script d)) = Z.to_nat (header.NumLevels head) ∧
  Forall (λ l, length (Puzzles l) = 4%nat ∧ length (Pickups l) = 2%nat ∧
               length (Keys l) = 4%nat) (Levels (script d)) ∧
  length (Titles (script d)) = Z.to_nat (header.NumTitles head) ∧
  length (Fmvs (script d)) = Z.to_nat (header.NumFmvs head) ∧
  length (Cutscenes (script d)) = Z.to_nat (header.NumCutscenes head) ∧
  length (ExtraStrings (script d)) = 41%nat ∧
  Version (script d) = header.Version head ∧
  Description (script d) = string_of_bytes (header.Description head) ∧
  String.length (Description (script d)) = 256%nat ∧
  Lang (script d) = 0.
Proof.
  unfold Read_decoded.
  assert (Hdesc : length (header.Description (readHeader r).1) = 256%nat).
  { unfold readHeader, binary_Read.
    destruct (header.size <=? len r) eqn:Hlen; [|done].
    apply Z.leb_le in Hlen. unfold header.size, len in *. cbn [fst].
    cbn [header.decode header.Description]. unfold sub.
    rewrite length_take, length_drop, length_take. lia. }
  destruct (readHeader r) as [head r0]. cbn [fst] in *.
  intros H.
  bind_inv H as [names r1] Hnames.
  bind_inv H as [chapterPaths r2] Hchapters.
  bind_inv H as [titlePaths r3] Htitles.
  bind_inv H as [fmvPaths r4] Hfmvs.
  bind_inv H as [levelPaths r5] Hpaths.
  bind_inv H as [cutscenePaths r6] Hcutscenes.
  bind_inv H as [flow r7] Hflow.
  destruct (readDemoLevels r7 _) as [demoLevels r8].
  bind_inv H as [gameStrings r9] Hstrings.
  bind_inv H as [extraStrings r10] Hextra.
  bind_inv H as [levels1 r11] Hpuzzles.
  bind_inv H as [levels2 r12] Hpickups.
  bind_inv H as [levels3 r13] Hkeys.
  injection H as <-. cbn [script levelNames Levels Titles Fmvs Cutscenes
    ExtraStrings Version Description Lang].
  apply readStringArray_length in Hnames, Htitles, Hfmvs, Hcutscenes, Hextra.
  assert (HName : Name <$> levels3 = names).
  { rewrite (readSlots_frame Name _ setKey _ _ _ _ _ _ (λ _ _ _, eq_refl) Hkeys).
    rewrite (readSlots_frame Name _ setPickup _ _ _ _ _ _ (λ _ _ _, eq_refl)
               Hpickups).
    rewrite (readSlots_frame Name _ setPuzzle _ _ _ _ _ _ (λ _ _ _, eq_refl)
               Hpuzzles).
    apply joinLevels_Name. }
  pose (f := λ l : Level,
          (length (Puzzles l), length (Pickups l), length (Keys l))).
  assert (Hf : ∀ put : nat → string → Level → Level,
            put = setPuzzle ∨ put = setPickup ∨ put = setKey →
            ∀ i v l, f (put i v l) = f l).
  { intros put Hput i v l.
    destruct Hput as [Hput|[Hput|Hput]]; subst put; unfold f; simpl;
      by rewrite length_insert. }
  assert (Hslots : f <$> levels3 = replicate (length names) (4, 2, 4)%nat).
  { rewrite (readSlots_frame f _ setKey _ _ _ _ _ _
               (Hf setKey (or_intror (or_intror eq_refl))) Hkeys).
    rewrite (readSlots_frame f _ setPickup _ _ _ _ _ _
               (Hf setPickup (or_intror (or_introl eq_refl))) Hpickups).
    rewrite (readSlots_frame f _ setPuzzle _ _ _ _ _ _
               (Hf setPuzzle (or_introl eq_refl)) Hpuzzles).
    apply joinLevels_slot_lengths. }
  split; [done|]. split.
  { rewrite <- Hnames, <- HName. by rewrite length_fmap. }
  split.
  { apply Forall_forall. intros l Hl.
    assert (Hin : f l ∈ f <$> levels3) by (by apply list_elem_of_fmap_2).
    rewrite Hslots in Hin. apply elem_of_replicate_inv in Hin.
    unfold f in Hin. by injection Hin as -> -> ->. }
  repeat (split; [done|]). split; [|done].
  clear -Hdesc. revert Hdesc. generalize (header.Description head) 256%nat.
  intros bs. induction bs as [|b bs IH]; intros n <-; [done|].
  simpl. f_equal. by apply IH.
Qed.

Lemma Read_script_shape_witness :
  ∃ d,
    Read_decoded jungle_file = Returned d ∧
    Name <$> Levels (script d) = levelNames d ∧
    length (Levels (script d))
    = Z.to_nat (header.NumLevels (readHeader jungle_file).1).
Proof.
  eexists _.
  split; [vm_compute; reflexivity|].
  split.
  - refine (proj1 (Read_script_shape jungle_file _ _)).
    vm_compute; reflexivity.
  - refine (proj1 (proj2 (Read_script_shape jungle_file _ _))).
    vm_compute; reflexivity.
Defined.

(** ** A source with nothing left *)

Lemma rising_zeros (n : nat) : rising 0 (replicate n 0) 0 = true.
Proof. induction n as [|n IH]; [done|]. simpl. exact IH. Qed.

Lemma records_zeros {A} (n : nat) :
  records (replicate n 0) (@nil A) = replicate n [].
Proof.
  induction n as [|n IH]; [done|].
  cbn [replicate records]. rewrite IH. f_equal. by destruct n.
Qed.

Lemma read_uint16s_exhausted count :
  read_uint16s count [] = (replicate (Z.to_nat count) 0, []).
Proof.
  unfold read_uint16s, binary_Read. change (len (@nil Z)) with 0.
  destruct (2 * count <=? 0) eqn:Hc; [|done].
  apply Z.leb_le in Hc. rewrite take_nil, drop_nil.
  by replace (Z.to_nat count) with 0%nat by lia.
Qed.

Lemma decodeSequences_empty (n : nat) :
  decodeSequences (replicate n []) = Returned (replicate n []).
Proof.
  induction n as [|n IH]; [done|]. cbn [replicate decodeSequences].
  by rewrite decodeSequence_nil, IH.
Qed.

(** X16.  Once the source has nothing left, the readers fill their results
    with zero values and return, for every count and key, without a sign
    that nothing was read: [count] empty strings, [count] empty sequences,
    [count] demo levels 0, no game strings. *)
Theorem readers_on_exhausted_source (count xor : Z) :
  readStringArray [] count xor
  = Returned (replicate (Z.to_nat count) ""%string, []) ∧
  readSequenceArray [] count
  = Returned (replicate (Z.to_nat count) [], []) ∧
  readDemoLevels [] count = (replicate (Z.to_nat count) 0, []) ∧
  readGameStrings [] xor = Returned ([], []).
Proof.
  assert (Hm : readMultiByteArray [] count
               = (newMultiByteArray (replicate (Z.to_nat count) 0) [], [])).
  { unfold readMultiByteArray. by rewrite read_uint16s_exhausted. }
  split; [|split; [|split]].
  - unfold readStringArray. rewrite Hm, Strings_valid.
    + cbn [offsets data mbind outcome_bind]. rewrite records_zeros.
      do 2 f_equal. rewrite <- list_fmap_compose, fmap_replicate.
      simpl. by rewrite xor_bytes_nil.
    + apply rising_zeros.
  - unfold readSequenceArray. rewrite Hm. unfold U16. cbn [offsets data].
    rewrite (U16_from_rising _ _ 0); [|done|].
    + cbn [mbind outcome_bind words_of_bytes].
      rewrite fmap_replicate. change (half 0) with 0.
      by rewrite records_zeros, decodeSequences_empty.
    + rewrite fmap_replicate. apply rising_zeros.
  - apply read_uint16s_exhausted.
  - reflexivity.
Qed.

(** ** The demo levels *)

Lemma words_of_bytes_uint16 bs :
  Forall is_uint8 bs → Forall is_uint16 (words_of_bytes bs).
Proof.
  intros Hbs. remember (length bs) as n eqn:Hn. revert bs Hbs Hn.
  induction n as [n IH] using lt_wf_ind. intros [|b0 [|b1 bs]] Hbs ->; [done..|].
  cbn [words_of_bytes]. inversion Hbs as [|? ? Hb0 Hbs']; subst.
  inversion Hbs' as [|? ? Hb1 Hbs'']; subst. constructor.
  - rewrite LittleEndian_Uint16_add by done.
    unfold is_uint8, is_uint16 in *. lia.
  - eapply IH; [|done|done]. simpl. lia.
Qed.

(** X17.  [readDemoLevels] returns [count] values of 16 bits, whatever the
    source: when the source has [2*count] bytes they are the words of these
    bytes, least significant byte first, and the bytes are taken off the
    source; when it has fewer they are all 0 and the source is left with
    nothing. *)
Theorem readDemoLevels_words (r : reader) (count : Z) :
  Forall is_uint8 r → 0 ≤ count →
  length (readDemoLevels r count).1 = Z.to_nat count ∧
  Forall is_uint16 (readDemoLevels r count).1 ∧
  (2 * count ≤ len r →
   bytes_of_words (readDemoLevels r count).1 = take (Z.to_nat (2 * count)) r ∧
   (readDemoLevels r count).2 = drop (Z.to_nat (2 * count)) r) ∧
  (len r < 2 * count →
   readDemoLevels r count = (replicate (Z.to_nat count) 0, [])).
Proof.
  intros Hr Hcount. split; [apply read_uint16s_length|].
  unfold readDemoLevels, read_uint16s, binary_Read.
  destruct (2 * count <=? len r) eqn:Hlen; cbn [fst snd].
  - apply Z.leb_le in Hlen. split; [|split; [|lia]].
    + by apply words_of_bytes_uint16, Forall_take.
    + intros _. split; [|done]. apply bytes_of_words_of_bytes.
      * by apply Forall_take.
      * unfold len in *. rewrite length_take.
        replace (Z.of_nat (Z.to_nat (2 * count) `min` length r))
          with (2 * count) by lia.
        by rewrite Z.even_mul.
  - apply Z.leb_gt in Hlen. split; [|split; [lia|done]].
    apply Forall_replicate. unfold is_uint16. lia.
Qed.

Lemma readDemoLevels_words_witness :
  bytes_of_words (readDemoLevels [3; 0; 1; 1; 9] 2).1
  = take (Z.to_nat (2 * 2)) [3; 0; 1; 1; 9].
Proof.
  apply (proj1 (proj2 (proj2 (readDemoLevels_words [3; 0; 1; 1; 9] 2
           ltac:(repeat constructor; unfold is_uint8; lia) ltac:(lia)))));
    unfold len; simpl; lia.
Defined.

(** ** Where [Read] can stop *)

Lemma readStringArray_panic r count xor e :
  readStringArray r count xor = Panicked e → e = SliceBoundsOutOfRange.
Proof.
  unfold readStringArray. destruct (readMultiByteArray r count) as [m r1].
  destruct (rising 0 (offsets m) (len (data m))) eqn:Hr.
  - by rewrite Strings_valid.
  - rewrite Strings_invalid; [by intros [= <-]|].
    unfold valid. by rewrite Hr.
Qed.

Lemma readGameStrings_panic r xor e :
  readGameStrings r xor = Panicked e → e = SliceBoundsOutOfRange.
Proof.
  unfold readGameStrings. destruct (read_uint16 0 r) as [count r1].
  apply readStringArray_panic.
Qed.

Lemma readSlots_panic k set i head levels r e :
  length levels = Z.to_nat (header.NumLevels head) →
  readSlots k set i head levels r = Panicked e → e = SliceBoundsOutOfRange.
Proof.
  revert i levels r. induction k as [|k IH]; intros i levels r Hlen; [done|].
  cbn [readSlots].
  destruct (readStringArray r _ _) as [[puzzles r1]|e1] eqn:Hread.
  - cbn [mbind outcome_bind].
    pose proof (readStringArray_length _ _ _ _ _ Hread) as Hpuzzles.
    rewrite scatter_zip by done. cbn [mbind outcome_bind].
    apply IH. rewrite length_zip_with. lia.
  - cbn [mbind outcome_bind]. intros [= <-].
    by apply readStringArray_panic in Hread.
Qed.

Lemma readSlots_length k set i head levels r levels' r' :
  readSlots k set i head levels r = Returned (levels', r') →
  length levels' = length levels.
Proof.
  intros H. apply (readSlots_frame (λ _, ())) in H; [|done].
  apply (f_equal length) in H. by rewrite !length_fmap in H.
Qed.

Lemma U16_panic m e : U16 m = Panicked e → e = SliceBoundsOutOfRange.
Proof.
  destruct (rising 0 (half <$> offsets m) (len (words_of_bytes (data m))))
    eqn:Hr.
  - by rewrite U16_rising.
  - rewrite U16_invalid by done. by intros [= <-].
Qed.

Lemma decodeSequence_panic chunk e :
  decodeSequence chunk = Panicked e → e = IndexOutOfRange.
Proof.
  induction chunk as [|w rest Hw IH|w Hw|w arg rest Hw IH] using scan_ind.
  - done.
  - rewrite decodeSequence_plain by done.
    destruct (decodeSequence rest); [done|]. intros [= <-]. by apply IH.
  - rewrite decodeSequence_arg_missing by done. by intros [= <-].
  - rewrite decodeSequence_arg by done.
    destruct (decodeSequence rest); [done|]. intros [= <-]. by apply IH.
Qed.

(** The loop over the chunks stops exactly when the scan of a chunk does. *)
Lemma decodeSequences_panic_chunk chunks e :
  decodeSequences chunks = Panicked e →
  e = IndexOutOfRange ∧
  ∃ chunk, chunk ∈ chunks ∧ decodeSequence chunk = Panicked IndexOutOfRange.
Proof.
  revert e. induction chunks as [|chunk chunks IH]; intros e; [done|].
  cbn [decodeSequences].
  destruct (decodeSequence chunk) as [seq|e0] eqn:Hchunk;
    cbn [mbind outcome_bind].
  - destruct (decodeSequences chunks) as [seqs|e'];
      cbn [mbind outcome_bind]; [done|].
    intros [= <-]. destruct (IH e' eq_refl) as (-> & chunk' & Hin & Hp).
    split; [done|]. exists chunk'. split; [by right | done].
  - intros [= <-]. pose proof (decodeSequence_panic _ _ Hchunk) as ->.
    split; [done|]. exists chunk. split; [by left | done].
Qed.

Lemma decodeSequences_chunk_panics chunks chunk :
  chunk ∈ chunks → decodeSequence chunk = Panicked IndexOutOfRange →
  decodeSequences chunks = Panicked IndexOutOfRange.
Proof.
  intros Hin Hp. induction chunks as [|c chunks IH];
    [by apply elem_of_nil in Hin|].
  cbn [decodeSequences]. apply elem_of_cons in Hin as [<-|Hin].
  - by rewrite Hp.
  - destruct (decodeSequence c) as [seq|e] eqn:Hc; cbn [mbind outcome_bind].
    + by rewrite IH.
    + by rewrite (decodeSequence_panic _ _ Hc).
Qed.

(** X18.  [Read] stops with an index out of range exactly when the header
    and the six tables of strings before the gameflow table are read and the
    instruction scan stops on one of the chunks of the gameflow table, read
    with [NumLevels+1] records.  The indexing [Read] does itself stays in
    range: the loops over the levels, on as many levels as the header's
    [NumLevels], find level [j] and string [j] of every table they go
    through, whatever the source holds. *)
Theorem Read_index_out_of_range_is_scan (r : reader) :
  (Read r = Panicked IndexOutOfRange ↔
   ∃ r6 chunks chunk,
     gameflow_source r = Returned r6 ∧
     U16 (readMultiByteArray
            r6 (uint16 (header.NumLevels (readHeader r).1 + 1))).1
     = Returned chunks ∧
     chunk ∈ chunks ∧
     decodeSequence chunk = Panicked IndexOutOfRange) ∧
  (∀ k set i head levels r0,
     length levels = Z.to_nat (header.NumLevels head) →
     readSlots k set i head levels r0 ≠ Panicked IndexOutOfRange).
Proof.
  split; [|intros k set i head levels r0 Hlen Hp;
           by apply readSlots_panic in Hp].
  unfold Read, Read_decoded, gameflow_source.
  destruct (readHeader r) as [head r0]. cbn [fst].
  assert (Hstr : ∀ r count xor e,
            readStringArray r count xor = Panicked e →
            e ≠ IndexOutOfRange)
    by (intros ? ? ? ? ->%readStringArray_panic; done).
  destruct (readStringArray r0 _ _) as [[names r1]|e1] eqn:H1;
    cbn [mbind outcome_bind fmap outcome_fmap];
    [|split; [intros [= ->]; by destruct (Hstr _ _ _ _ H1)
             |by intros (? & ? & ? & ? & _)]].
  destruct (readStringArray r1 _ _) as [[chapterPaths r2]|e2] eqn:H2;
    cbn [mbind outcome_bind fmap outcome_fmap];
    [|split; [intros [= ->]; by destruct (Hstr _ _ _ _ H2)
             |by intros (? & ? & ? & ? & _)]].
  destruct (readStringArray r2 _ _) as [[titlePaths r3]|e3] eqn:H3;
    cbn [mbind outcome_bind fmap outcome_fmap];
    [|split; [intros [= ->]; by destruct (Hstr _ _ _ _ H3)
             |by intros (? & ? & ? & ? & _)]].
  destruct (readStringArray r3 _ _) as [[fmvPaths r4]|e4] eqn:H4;
    cbn [mbind outcome_bind fmap outcome_fmap];
    [|split; [intros [= ->]; by destruct (Hstr _ _ _ _ H4)
             |by intros (? & ? & ? & ? & _)]].
  destruct (readStringArray r4 _ _) as [[levelPaths r5]|e5] eqn:H5;
    cbn [mbind outcome_bind fmap outcome_fmap];
    [|split; [intros [= ->]; by destruct (Hstr _ _ _ _ H5)
             |by intros (? & ? & ? & ? & _)]].
  destruct (readStringArray r5 _ _) as [[cutscenePaths r6]|e6] eqn:H6;
    cbn [mbind outcome_bind fmap outcome_fmap];
    [|split; [intros [= ->]; by destruct (Hstr _ _ _ _ H6)
             |by intros (? & ? & ? & ? & _)]].
  unfold readSequenceArray.
  destruct (readMultiByteArray r6 _) as [m r7] eqn:Hm.
  destruct (U16 m) as [chunks|e7] eqn:H7; cbn [mbind outcome_bind].
  2:{ pose proof (U16_panic _ _ H7) as ->. split; [done|].
      intros (? & chunks' & chunk & [= <-] & HU & _).
      rewrite Hm in HU. cbn [fst] in HU. by rewrite H7 in HU. }
  destruct (decodeSequences chunks) as [flow|e8] eqn:H8;
    cbn [mbind outcome_bind fmap outcome_fmap].
  2:{ destruct (decodeSequences_panic_chunk _ _ H8) as (-> & chunk & Hin & Hp).
      split; [|done]. intros _. exists r6, chunks, chunk.
      rewrite Hm. by cbn [fst]. }
  split.
  2:{ intros (? & chunks' & chunk & [= <-] & HU & Hin & Hp).
      rewrite Hm in HU. cbn [fst] in HU. rewrite H7 in HU.
      injection HU as <-.
      by rewrite (decodeSequences_chunk_panics _ _ Hin Hp) in H8. }
  destruct (readDemoLevels r7 _) as [demoLevels r8].
  destruct (readGameStrings r8 _) as [[gameStrings r9]|e9] eqn:H9;
    cbn [mbind outcome_bind fmap outcome_fmap];
    [|intros [= ->]; by apply readGameStrings_panic in H9].
  destruct (readStringArray r9 _ _) as [[extraStrings r10]|e10] eqn:H10;
    cbn [mbind outcome_bind fmap outcome_fmap];
    [|intros [= ->]; by apply readStringArray_panic in H10].
  apply readStringArray_length in H1.
  assert (Hlen0 : length (joinLevels names levelPaths chapterPaths flow
                                     demoLevels)
                  = Z.to_nat (header.NumLevels head))
    by (by rewrite joinLevels_length).
  destruct (readSlots 4 setPuzzle _ _ _ _) as [[levels1 r11]|e11] eqn:H11;
    cbn [mbind outcome_bind fmap outcome_fmap];
    [|intros [= ->]; by apply readSlots_panic in H11].
  apply readSlots_length in H11.
  destruct (readSlots 2 setPickup _ _ _ _) as [[levels2 r12]|e12] eqn:H12;
    cbn [mbind outcome_bind fmap outcome_fmap];
    [|intros [= ->]; apply readSlots_panic in H12; [done|lia]].
  apply readSlots_length in H12.
  destruct (readSlots 4 setKey _ _ _ _) as [[levels3 r13]|e13] eqn:H13;
    cbn [mbind outcome_bind fmap outcome_fmap];
    [|intros [= ->]; apply readSlots_panic in H13; [done|lia]].
  done.
Qed.

Lemma Read_index_out_of_range_is_scan_witness :
  Read (replicate 402 0 ++ [0; 0; 2; 0; 0; 0]) = Panicked IndexOutOfRange ∧
  ∃ r6 chunks chunk,
    gameflow_source (replicate 402 0 ++ [0; 0; 2; 0; 0; 0]) = Returned r6 ∧
    U16 (readMultiByteArray
           r6 (uint16 (header.NumLevels
                         (readHeader (replicate 402 0 ++ [0; 0; 2; 0; 0; 0])).1
                       + 1))).1
    = Returned chunks ∧
    chunk ∈ chunks ∧
    decodeSequence chunk = Panicked IndexOutOfRange.
Proof.
  split; [reflexivity|].
  apply (proj1 (proj1 (Read_index_out_of_range_is_scan
                         (replicate 402 0 ++ [0; 0; 2; 0; 0; 0])))).
  reflexivity.
Defined.

(** ** The earlier formatter *)

(** X19.  [FormatOp], the formatter of the earlier revision, and
    [FormatCommand] give the same on every script and every instruction the
    earlier revision has, whose opcode is a [uint16]: the same text, or the
    same index out of range on an argument past its table. *)
Theorem earlier_FormatOp_agrees (s : Script) (c : Command) :
  is_uint16 (Op c) → earlier.FormatOp s c = FormatCommand s c.
Proof.
  intros [Hop _]. unfold earlier.FormatOp, FormatCommand.
  destruct (hasArg (Op c)); [done|]. cbn [negb].
  unfold fmt_Opcode. by rewrite Opcode_String_name.
Qed.

Lemma earlier_FormatOp_agrees_witness :
  earlier.FormatOp jungle (mkCommand OpEnd 0)
  = FormatCommand jungle (mkCommand OpEnd 0).
Proof.
  apply (earlier_FormatOp_agrees jungle (mkCommand OpEnd 0)).
  unfold is_uint16, OpEnd. simpl. lia.
Defined.
